(** * pokecache: a time-expiring key-value cache with a background reaper

    Shallow embedding of [pokecache/pokecache.go] and proofs of the
    properties its specification states.

    The embedding follows the Go source method by method.  Every method
    of [*Cache] takes [c.mu] on entry and releases it on return, so the
    calls on one cache are totally ordered and each runs alone on the
    map: a method is a function from the cache before the call to its
    results and the cache after the call.  The clock readings a method
    takes ([time.Now], [time.Since]) are arguments of its model. *)

From Stdlib Require Import ZArith Strings.Byte.
From stdpp Require Import gmap strings list fin_maps pretty sorting.

Open Scope Z_scope.

(** ** Package [time] *)

Module time.

(** [time.Duration] is an int64 count of nanoseconds. *)
Definition Duration := Z.

Definition Nanosecond : Duration := 1.
Definition Microsecond : Duration := 1000 * Nanosecond.
Definition Millisecond : Duration := 1000 * Microsecond.
Definition Second : Duration := 1000 * Millisecond.
Definition Minute : Duration := 60 * Second.

Definition minDuration : Duration := - 2 ^ 63.
Definition maxDuration : Duration := 2 ^ 63 - 1.

(** A [time.Time] obtained from [time.Now] carries a monotonic clock
    reading, and differences of such values are taken on those
    readings: a time is its monotonic reading in nanoseconds.  The
    readings are integers without a bound; the bound of the result of a
    subtraction is in [Sub]. *)
Definition Time := Z.

(** [t.Sub(u)]: the difference [t - u], which saturates at the largest
    and smallest [Duration] instead of wrapping around. *)
Definition Sub (t u : Time) : Duration :=
  if maxDuration <? t - u then maxDuration
  else if t - u <? minDuration then minDuration
  else t - u.

(** [time.Since(t)] is [time.Now().Sub(t)]; [now] is the reading that
    [time.Now] returns in that call. *)
Definition Since (now t : Time) : Duration := Sub now t.

End time.

(** ** Package [pokecache] *)

(** A [[]byte].  The nil slice and the empty slice hold the same (no)
    bytes and are both the empty list. *)
Abbreviation bytes := (list Byte.byte).

(** A Go [error] value: [nil], or the value built by [errors.New]. *)
Inductive error : Type :=
| no_error
| errors_New (text : string).

Record cacheEntry : Type := mk_cacheEntry {
  createdAt : time.Time;
  data : bytes
}.

(** The [Cache] struct.  Its mutex has no state between calls and is
    left out.  [entries] is the map allocated by [NewCache], the one
    constructor of the package. *)
Record Cache : Type := mk_Cache {
  entries : gmap string cacheEntry
}.

(** The time after which an entry is stale, [5 * time.Minute] in [Reap],
    and the time the reaper sleeps between sweeps, [5 * time.Minute] in
    [ReapLoop]. *)
Definition ttl : time.Duration := 5 * time.Minute.
Definition sweepInterval : time.Duration := 5 * time.Minute.

(** A method call: the cache before the call to the returned values and
    the cache after the call. *)
Definition method (A : Type) : Type := Cache → A * Cache.

Definition returned {A} (r : A * Cache) : A := r.1.
Definition after {A} (r : A * Cache) : Cache := r.2.

(** [func (c *Cache) Add(key string, data []byte) error] *)
Definition Add (now : time.Time) (key : string) (data : bytes) : method error :=
  λ c,
    (no_error,
     {| entries := <[key := {| createdAt := now; data := data |}]> (entries c) |}).

(** [func (c *Cache) Get(key string) ([]byte, error)] *)
Definition Get (key : string) : method (bytes * error) :=
  λ c,
    match entries c !! key with
    | None => (([], errors_New "key not found"), c)
    | Some entry => ((data entry, no_error), c)
    end.

(** The condition of the [if] in [Reap],
    [time.Since(entry.createdAt) > 5*time.Minute], with the reading
    [now] of the clock. *)
Definition stale (now : time.Time) (entry : cacheEntry) : bool :=
  ttl <? time.Since now (createdAt entry).

(** One pass through the body of the [range] loop of [Reap].  The clock
    is read anew in every pass; [clock key] is the reading taken in the
    pass that visits [key]. *)
Definition reap_body (clock : string → time.Time)
    (m : gmap string cacheEntry) (kv : string * cacheEntry) :
    gmap string cacheEntry :=
  if stale (clock kv.1) kv.2 then delete kv.1 m else m.

(** The [range] loop of [Reap], visiting the entries in the order
    [visit].  The loop deletes nothing but the key it is visiting, so it
    visits every entry the map held when the loop began, once, in an
    order Go leaves open. *)
Definition reap_range (clock : string → time.Time)
    (visit : list (string * cacheEntry)) (m : gmap string cacheEntry) :
    gmap string cacheEntry :=
  foldl (reap_body clock) m visit.

(** [func (c *Cache) Reap()], with the clock readings of the sweep. *)
Definition Reap (clock : string → time.Time) : method unit :=
  λ c,
    (tt, {| entries := reap_range clock (map_to_list (entries c)) (entries c) |}).

(** A sweep all of whose clock readings are the one instant [now]. *)
Definition Reap_at (now : time.Time) : method unit := Reap (λ _, now).

(** ** The cache and its reapers over time

    [ReapLoop] never returns: the goroutine that runs it sleeps, sweeps
    and sleeps again.  Between two sweeps it is inside [time.Sleep], and
    all there is to know of it is the instant at which that sleep is
    over. *)
Definition reaper : Type := time.Time.

(** [time.Sleep(5 * time.Minute)] called at [now]. *)
Definition ReapLoop_sleep (now : time.Time) : reaper := now + sweepInterval.

(** One turn of the [for] of [ReapLoop], from the return of [time.Sleep]
    at [now] to the next call of [time.Sleep]: [c.Reap()]. *)
Definition ReapLoop_turn (now : time.Time) (c : Cache) : reaper * Cache :=
  (ReapLoop_sleep now, after (Reap_at now c)).

(** A cache together with the clock and the goroutines inside its
    [ReapLoop].  The mutex orders the calls on the cache, and a call
    takes effect at one instant. *)
Record World : Type := mk_World {
  wnow : time.Time;
  wcache : Cache;
  wreapers : list reaper
}.

(** [func NewCache() *Cache], called at [now]: an empty map, and
    [go c.ReapLoop()]. *)
Definition NewCache (now : time.Time) : World :=
  {| wnow := now;
     wcache := {| entries := ∅ |};
     wreapers := [ReapLoop_sleep now] |}.

(** What can happen to a cache: time passes, a caller calls one of the
    exported methods [Add], [Get], [Reap] or starts [ReapLoop], or the
    sleep of reaper number [i] returns and it takes its next turn. *)
Inductive action : Type :=
| Pass (d : time.Duration)
| CallAdd (key : string) (data : bytes)
| CallGet (key : string)
| CallReap
| GoReapLoop
| Wake (i : nat).

(** [time.Sleep] pauses for at least the duration asked for, and the
    scheduler lets a sleeper overrun by less than the slack [eps], the
    wait for the mutex and the sweep included: time passes only as far
    as no reaper is overdue by [eps]. *)
Definition may_pass (eps : time.Duration) (d : time.Duration) (w : World) : bool :=
  (0 <=? d) && forallb (λ r : reaper, wnow w + d <? r + eps) (wreapers w).

Definition step (eps : time.Duration) (a : action) (w : World) : option World :=
  match a with
  | Pass d =>
      if may_pass eps d w
      then Some {| wnow := wnow w + d; wcache := wcache w; wreapers := wreapers w |}
      else None
  | CallAdd key data =>
      Some {| wnow := wnow w;
              wcache := after (Add (wnow w) key data (wcache w));
              wreapers := wreapers w |}
  | CallGet key =>
      Some {| wnow := wnow w;
              wcache := after (Get key (wcache w));
              wreapers := wreapers w |}
  | CallReap =>
      Some {| wnow := wnow w;
              wcache := after (Reap_at (wnow w) (wcache w));
              wreapers := wreapers w |}
  | GoReapLoop =>
      Some {| wnow := wnow w;
              wcache := wcache w;
              wreapers := wreapers w ++ [ReapLoop_sleep (wnow w)] |}
  | Wake i =>
      match wreapers w !! i with
      | Some r =>
          if r <=? wnow w
          then
            let turn := ReapLoop_turn (wnow w) (wcache w) in
            Some {| wnow := wnow w;
                    wcache := turn.2;
                    wreapers := <[i := turn.1]> (wreapers w) |}
          else None
      | None => None
      end
  end.

Fixpoint run (eps : time.Duration) (l : list action) (w : World) : option World :=
  match l with
  | [] => Some w
  | a :: l' =>
      match step eps a w with
      | Some w' => run eps l' w'
      | None => None
      end
  end.

(** The calls of [Add] on [key] in a list of actions. *)
Definition adds (key : string) (a : action) : bool :=
  match a with
  | CallAdd key' _ => bool_decide (key' = key)
  | _ => false
  end.

Definition starts_reaper (a : action) : bool :=
  match a with
  | GoReapLoop => true
  | _ => false
  end.

(** ** Notions used in the statements *)

(** The entries stored under one key, as the map lists them. *)
Definition entries_of (k : string) (c : Cache) : list (string * cacheEntry) :=
  filter (λ kv, kv.1 = k) (map_to_list (entries c)).

(** The calls of [ReapLoop] made by callers in a list of actions. *)
Definition loops_started (l : list action) : nat :=
  length (List.filter starts_reaper l).

(** A payload for the examples. *)
Definition payload12 : bytes := [Byte.x01; Byte.x02].

(** A cache for the examples, with entries made at minutes 0, 1 and 3. *)
Definition three_entries : Cache :=
  after (Add (3 * time.Minute) "new" []
    (after (Add time.Minute "edge" payload12
      (after (Add 0 "old" payload12 {| entries := ∅ |}))))).

(** *** Invariants of the reapers *)

(** No reaper sleeps for longer than [sweepInterval] from now. *)
Definition sleep_bounded (w : World) : Prop :=
  ∀ r, r ∈ wreapers w → r ≤ wnow w + sweepInterval.

(** No reaper is overdue by [eps]. *)
Definition on_time (eps : time.Duration) (w : World) : Prop :=
  ∀ r, r ∈ wreapers w → wnow w < r + eps.

(** The entry under [k], if there still is one, is the one made at
    [T], and some reaper will wake while it is stale or as it turns
    stale. *)
Definition doomed (T : time.Time) (k : string) (w : World) : Prop :=
  ∀ e, entries (wcache w) !! k = Some e →
    createdAt e = T ∧ ∃ r, r ∈ wreapers w ∧ r ≤ T + ttl + sweepInterval.

(** ** Package [main]

    The command loop that uses the cache.  What the program takes from
    outside (the network, the dice, the lines typed, the JSON decoder)
    is an argument of the model; what it prints is collected in
    [stdout], one element for every call of a printing function. *)

(** *** The pokedex: [pokemonEntry], [pokedex] and its methods *)

Module pokedex.

Record pokemonEntry : Type := mk_pokemonEntry {
  createdAt : time.Time;
  data : bytes
}.

Record pokedex : Type := mk_pokedex {
  entries : gmap string pokemonEntry
}.

(** [func (p *pokedex) Add(key string, data []byte) error] *)
Definition Add (now : time.Time) (key : string) (data : bytes)
    (p : pokedex) : error * pokedex :=
  (no_error,
   {| entries := <[key := {| createdAt := now; data := data |}]> (entries p) |}).

(** [func (p *pokedex) Get(key string) ([]byte, error)] *)
Definition Get (key : string) (p : pokedex) : (bytes * error) * pokedex :=
  match entries p !! key with
  | None => (([], errors_New "key not found"), p)
  | Some entry => ((data entry, no_error), p)
  end.

(** [func NewPokedex() *pokedex] *)
Definition NewPokedex : pokedex := {| entries := ∅ |}.

End pokedex.

(** *** The decoded JSON values *)

(** The struct [{ Name string; URL string }] that the three JSON types
    use for a resource. *)
Record resource : Type := mk_resource {
  Name : string;
  URL : string
}.

Module PokeLoc.
Record t : Type := mk {
  Count : Z;
  Next : option string;
  Previous : option string;
  Results : list resource
}.
End PokeLoc.

Module PokeLocal.
Record encounter : Type := mk_encounter {
  Pokemon : resource
}.
Record t : Type := mk {
  ID : Z;
  Name : string;
  PokemonEncounters : list encounter
}.
End PokeLocal.

Module Pokemon.
Record ability : Type := mk_ability {
  IsHidden : bool;
  ability_Slot : Z;
  Ability : resource
}.
Record version_group_detail : Type := mk_version_group_detail {
  LevelLearnedAt : Z;
  VersionGroup : resource;
  MoveLearnMethod : resource
}.
Record move : Type := mk_move {
  Move : resource;
  VersionGroupDetails : list version_group_detail
}.
Record cries : Type := mk_cries {
  Latest : string;
  Legacy : string
}.
Record stat : Type := mk_stat {
  BaseStat : Z;
  Effort : Z;
  Stat : resource
}.
Record type : Type := mk_type {
  type_Slot : Z;
  Type_ : resource
}.
Record t : Type := mk {
  ID : Z;
  Name : string;
  BaseExperience : Z;
  Height : Z;
  IsDefault : bool;
  Order : Z;
  Weight : Z;
  Abilities : list ability;
  Forms : list resource;
  LocationAreaEncounters : string;
  Moves : list move;
  Species : resource;
  Cries : cries;
  Stats : list stat;
  Types : list type
}.
End Pokemon.

(** [type PokeAPI struct]: the two page addresses, [nil] or a string. *)
Record PokeAPI : Type := mk_PokeAPI {
  NextURL : option string;
  PrevURL : option string
}.

(** *** The library functions the program calls *)

Definition newline : string := String (Ascii.ascii_of_byte Byte.x0a) EmptyString.

(** [fmt.Println(operands...)] with string operands: the operands with
    a space between them, and a newline. *)
Definition Println (operands : list string) : string :=
  String.concat " " operands +:+ newline.

(** [err.Error()], as the printing functions format an [error]. *)
Definition Error (err : error) : string :=
  match err with
  | no_error => "<nil>"
  | errors_New text => text
  end.

(** [strings.Contains(s, substr)] *)
Definition strings_Contains (s substr : string) : bool :=
  match String.index 0 substr s with
  | Some _ => true
  | None => false
  end.

(** The Go [int] is taken at 64 bits; arithmetic on it wraps around. *)
Definition wrap_int (z : Z) : Z := (z + 2 ^ 63) mod 2 ^ 64 - 2 ^ 63.
Definition int_mul (a b : Z) : Z := wrap_int (a * b).

(** The verb [%d] of [fmt.Printf]. *)
Definition format_d (z : Z) : string := pretty z.

(** What [http.Get(url)], [io.ReadAll(resp.Body)] and
    [resp.Header.Get("Content-Type")] give for one request: an error of
    [http.Get], an error of [io.ReadAll], or the content type and the
    body.  The status of the response is not looked at by the program.
    An error from outside the program is known by its message. *)
Inductive response : Type :=
| GetFails (message : string)
| ReadFails (message : string)
| Response (contentType : string) (body : bytes).

(** What a command finds outside the program while it runs: the
    readings of the clock in [pCache.Add] and in [pDex.Add], the
    network, the number [rand.Intn(10)] returns, and the order in which
    a [range] over the pokedex visits its keys. *)
Record env : Type := mk_env {
  clock_now : time.Time;
  clock_pDex : time.Time;
  network : string → response;
  dice_roll : Z;
  range_order : list string
}.

(** *** The program *)

(** The package variables [pCache] and [pDex], the [api] value that
    [init] allocates for the two map commands, and the standard
    output. *)
Record Program : Type := mk_Program {
  pCache : Cache;
  pDex : pokedex.pokedex;
  api : PokeAPI;
  stdout : list string
}.

Definition with_pCache (c : Cache) (s : Program) : Program :=
  {| pCache := c; pDex := pDex s; api := api s; stdout := stdout s |}.

Definition with_pDex (p : pokedex.pokedex) (s : Program) : Program :=
  {| pCache := pCache s; pDex := p; api := api s; stdout := stdout s |}.

Definition with_api (a : PokeAPI) (s : Program) : Program :=
  {| pCache := pCache s; pDex := pDex s; api := a; stdout := stdout s |}.

(** A call of [fmt.Print], [fmt.Println] or [fmt.Printf] that writes
    [text]. *)
Definition print (text : string) (s : Program) : Program :=
  {| pCache := pCache s; pDex := pDex s; api := api s;
     stdout := stdout s ++ [text] |}.

(** A function of the program that returns an [error]. *)
Definition command : Type := Program → error * Program.

(** The statements that [commandExplore], [commandMap] and
    [commandCatch] share word for word, from the comment "Check the
    cache" to the last [return]; [process] is the function they hand the
    payload to.  A command runs between two sweeps of the reaper. *)
Definition through_cache (e : env) (url : string) (process : bytes → command) :
    command :=
  λ s,
    match Get url (pCache s) with
    | ((data, no_error), c) => process data (with_pCache c s)
    | (_, c) =>
        let s := with_pCache c s in
        match network e url with
        | GetFails message =>
            (errors_New message, print (Println ["Error fetching data:"; message]) s)
        | ReadFails message =>
            (errors_New message, print (Println ["Error reading response:"; message]) s)
        | Response contentType body =>
            if negb (strings_Contains contentType "application/json")
            then (errors_New "response is not JSON",
                  print (Println ["Response is not JSON:"; contentType]) s)
            else
              match Add (clock_now e) url body (pCache s) with
              | (no_error, c) => process body (with_pCache c s)
              | (err, c) =>
                  (err, print (Println ["Error adding to cache:"; Error err])
                          (with_pCache c s))
              end
        end
    end.

Section program.

(** [json.Unmarshal(data, &v)] for the three types of [v]: the decoded
    value, or the message of the error. *)
Context (json_PokeLoc : bytes → PokeLoc.t + string).
Context (json_PokeLocal : bytes → PokeLocal.t + string).
Context (json_Pokemon : bytes → Pokemon.t + string).

(** [func processExplore(data []byte) error] *)
Definition processExplore (data : bytes) : command :=
  λ s,
    match json_PokeLocal data with
    | inr message =>
        (errors_New message, print (Println ["Error unmarshalling JSON:"; message]) s)
    | inl locs =>
        let s :=
          if (0 <? length (PokeLocal.PokemonEncounters locs))%nat
          then print (Println ["Pokemon found:"]) s
          else s in
        (no_error,
         foldl (λ s loc, print (Println [Name (PokeLocal.Pokemon loc)]) s)
           s (PokeLocal.PokemonEncounters locs))
    end.

(** [func commandExplore(params ...string) error] *)
Definition commandExplore (e : env) (params : list string) : command :=
  λ s,
    match params with
    | [] =>
        (errors_New "no location name provided",
         print (Println ["Please provide a location name"]) s)
    | param :: _ =>
        let s := print (Println ["Exploring location:"; param]) s in
        let url := "https://pokeapi.co/api/v2/location-area/" +:+ param in
        through_cache e url processExplore s
    end.

(** [func processResponse(data []byte, api *PokeAPI) error] *)
Definition processResponse (data : bytes) : command :=
  λ s,
    match json_PokeLoc data with
    | inr message =>
        (errors_New message, print (Println ["Error unmarshalling JSON:"; message]) s)
    | inl locs =>
        let s := foldl (λ s loc, print (Println [Name loc]) s)
                   s (PokeLoc.Results locs) in
        (no_error,
         with_api {| NextURL := PokeLoc.Next locs;
                     PrevURL := PokeLoc.Previous locs |} s)
    end.

(** [func (api *PokeAPI) commandMap(dir string) error] *)
Definition commandMap (e : env) (dir : string) : command :=
  λ s,
    let no_more := (no_error, print (Println ["No more results"]) s) in
    if bool_decide (dir = "next") then
      match NextURL (api s) with
      | None => no_more
      | Some url => through_cache e url processResponse s
      end
    else if bool_decide (dir = "prev") then
      match PrevURL (api s) with
      | None => no_more
      | Some url => through_cache e url processResponse s
      end
    else
      (errors_New "invalid direction", print (Println ["Invalid direction"]) s).

(** [func processCatch(data []byte) error] *)
Definition processCatch (e : env) (data : bytes) : command :=
  λ s,
    match json_Pokemon data with
    | inr message =>
        (errors_New message, print (Println ["Error unmarshalling JSON:"; message]) s)
    | inl pokemon =>
        let s := print ("Throwing a Pokeball at " +:+ Pokemon.Name pokemon
                        +:+ "..." +:+ newline) s in
        let dice := dice_roll e in
        if 400 <? int_mul dice (Pokemon.BaseExperience pokemon) then
          let s := print (Println ["Oh no! The"; Pokemon.Name pokemon; "escaped!"]) s in
          let s := print ("Dice Roll : " +:+ format_d dice +:+ " * "
                          +:+ format_d (Pokemon.BaseExperience pokemon)
                          +:+ " > 400" +:+ newline) s in
          (no_error, s)
        else
          let s := print (Println ["Gotcha! You caught a"; Pokemon.Name pokemon]) s in
          (no_error,
           with_pDex (pokedex.Add (clock_pDex e) (Pokemon.Name pokemon) data (pDex s)).2 s)
    end.

(** [func commandCatch(params ...string) error] *)
Definition commandCatch (e : env) (params : list string) : command :=
  λ s,
    match params with
    | [] =>
        (errors_New "no Pokemon name provided",
         print (Println ["Please provide a Pokemon name"]) s)
    | param :: _ =>
        let url := "https://pokeapi.co/api/v2/pokemon/" +:+ param in
        through_cache e url (processCatch e) s
    end.

(** [func commandInspect(params ...string) error] *)
Definition commandInspect (params : list string) : command :=
  λ s,
    match params with
    | [] =>
        (errors_New "no Pokemon name provided",
         print (Println ["Please provide a Pokemon name"]) s)
    | param :: _ =>
        match pokedex.Get param (pDex s) with
        | ((data, no_error), p) =>
            let s := with_pDex p s in
            match json_Pokemon data with
            | inr message =>
                (errors_New message,
                 print (Println ["Error unmarshalling JSON:"; message]) s)
            | inl pokemon =>
                let s := print ("Name: " +:+ Pokemon.Name pokemon +:+ newline) s in
                let s := print ("Height: " +:+ format_d (Pokemon.Height pokemon)
                                +:+ newline) s in
                let s := print ("Weight: " +:+ format_d (Pokemon.Weight pokemon)
                                +:+ newline) s in
                let s := print (Println ["Stats:"]) s in
                let s := foldl (λ s stat,
                           print ("  -" +:+ Name (Pokemon.Stat stat) +:+ ": "
                                  +:+ format_d (Pokemon.BaseStat stat) +:+ newline) s)
                           s (Pokemon.Stats pokemon) in
                let s := print (Println ["Types:"]) s in
                let s := foldl (λ s t, print (Println ["  - "; Name (Pokemon.Type_ t)]) s)
                           s (Pokemon.Types pokemon) in
                (no_error, s)
            end
        | ((_, err), p) =>
            (err,
             print (Println ["You have not caught that pokemon yet (or there was an error):";
                             param])
               (with_pDex p s))
        end
    end.

(** [func commandPokedex(params ...string) error]; the [range] visits
    the names in the order [range_order e]. *)
Definition commandPokedex (e : env) (params : list string) : command :=
  λ s,
    let s := print (Println ["Pokedex:"]) s in
    (no_error, foldl (λ s name, print (Println ["  -"; name]) s) s (range_order e)).

End program.

(** [sort.Strings(keys)]: the strings in increasing order. *)
Definition sort_Strings (keys : list string) : list string :=
  merge_sort String.le keys.

(** [func commandHelp(params ...string) error]; [descriptions] is what
    the function reads of the variable [commands]: its keys, and the
    [description] under each key. *)
Definition commandHelp (descriptions : gmap string string) : command :=
  λ s,
    let keys := sort_Strings (map_to_list descriptions).*1 in
    let s := print (Println ["Welcome to the Pokedex!"]) s in
    let s := print (Println []) s in
    let s := print (Println ["Available commands:"]) s in
    let s := print (Println []) s in
    (no_error,
     foldl (λ s k,
        print (k +:+ ": " +:+ default EmptyString (descriptions !! k) +:+ newline) s)
       s keys).

(** How the call of a callback ends: it returns an error value, or it
    ends the process with [os.Exit]. *)
Inductive ran : Type :=
| Returns (err : error) (s : Program)
| Exits (code : Z) (s : Program).

Definition returning (c : command) : Program → ran :=
  λ s, Returns (c s).1 (c s).2.

(** [func commandExit(params ...string) error] *)
Definition commandExit (params : list string) : Program → ran :=
  λ s, Exits 0 s.

(** [type cliCommand struct] *)
Record cliCommand : Type := mk_cliCommand {
  name : string;
  description : string;
  callback : env → list string → Program → ran
}.

(** The state [init] leaves: a new cache, a new pokedex, and the first
    page address in [api]. *)
Definition init (now : time.Time) : Program :=
  {| pCache := wcache (NewCache now);
     pDex := pokedex.NewPokedex;
     api := {| NextURL := Some "https://pokeapi.co/api/v2/location-area";
               PrevURL := None |};
     stdout := [] |}.

Section program_loop.

Context (json_PokeLoc : bytes → PokeLoc.t + string).
Context (json_PokeLocal : bytes → PokeLocal.t + string).
Context (json_Pokemon : bytes → Pokemon.t + string).

(** [strings.TrimSpace] and [strings.Fields], taken as they are. *)
Context (strings_TrimSpace : string → string).
Context (strings_Fields : string → list string).

(** The keys and descriptions of the variable [commands], which
    [commandHelp] reads. *)
Definition descriptions : gmap string string :=
  list_to_map
    [("help", "Displays a help message");
     ("exit", "Exits the Pokedex");
     ("map", "Get the next 20 results from the location API");
     ("mapb", "Get the previous 20 results from the location API");
     ("explore", "Explore <location> to find Pokemon, with <location> being the name or id of the location");
     ("catch", "Try to catch <pokemon>, with <pokemon> being the name or id of the pokemon you are trying to catch.");
     ("inspect", "Inspect the following <pokemon>, with <pokemon> being the name or id of the pokemon you are trying to inspect. You can only inspect a pokemon you have caught.");
     ("pokedex", "Displays a list of all pokemons you have caught.")].

(** The variable [commands] as [init] fills it. *)
Definition commands : gmap string cliCommand :=
  list_to_map
    [("help",
      {| name := "help";
         description := "Displays a help message";
         callback := λ e params, returning (commandHelp descriptions) |});
     ("exit",
      {| name := "exit";
         description := "Exits the Pokedex";
         callback := λ e params, commandExit params |});
     ("map",
      {| name := "map";
         description := "Get the next 20 results from the location API";
         callback := λ e params, returning (commandMap json_PokeLoc e "next") |});
     ("mapb",
      {| name := "mapb";
         description := "Get the previous 20 results from the location API";
         callback := λ e params, returning (commandMap json_PokeLoc e "prev") |});
     ("explore",
      {| name := "explore";
         description := "Explore <location> to find Pokemon, with <location> being the name or id of the location";
         callback := λ e params, returning (commandExplore json_PokeLocal e params) |});
     ("catch",
      {| name := "catch";
         description := "Try to catch <pokemon>, with <pokemon> being the name or id of the pokemon you are trying to catch.";
         callback := λ e params, returning (commandCatch json_Pokemon e params) |});
     ("inspect",
      {| name := "inspect";
         description := "Inspect the following <pokemon>, with <pokemon> being the name or id of the pokemon you are trying to inspect. You can only inspect a pokemon you have caught.";
         callback := λ e params, returning (commandInspect json_Pokemon params) |});
     ("pokedex",
      {| name := "pokedex";
         description := "Displays a list of all pokemons you have caught.";
         callback := λ e params, returning (commandPokedex e params) |})].

(** What [reader.ReadString] gives in one turn of the loop of [main]. *)
Inductive stdin_read : Type :=
| ReadString (input : string)
| ReadString_fails (message : string).

(** How a turn of the loop of [main] ends: the loop goes on, or the
    process is over. *)
Inductive turned : Type :=
| Goes_on (s : Program)
| Ends (s : Program).

(** One turn of the [for] of [main]. *)
Definition main_turn (e : env) (r : stdin_read) (s : Program) : turned :=
  let s := print "Pokedex> " s in
  match r with
  | ReadString_fails message =>
      Ends (print (Println ["Error reading input:"; message]) s)
  | ReadString input =>
      match strings_Fields (strings_TrimSpace input) with
      | [] => Goes_on s
      | command :: params =>
          match commands !! command with
          | Some commandEntry =>
              match callback commandEntry e params s with
              | Returns no_error s => Goes_on s
              | Returns err s =>
                  Goes_on (print (Println ["Error executing command:"; Error err]) s)
              | Exits _ s => Ends s
              end
          | None => Goes_on (print (Println ["Unknown command"]) s)
          end
      end
  end.

(** What happens to the program: a turn of the loop of [main], or a
    sweep of the reaper that [NewCache] started, with its clock
    readings. *)
Inductive event : Type :=
| Turn (e : env) (r : stdin_read)
| Sweep (clock : string → time.Time).

(** The loop of [main], over the events of a run. *)
Fixpoint main (events : list event) (s : Program) : turned :=
  match events with
  | [] => Goes_on s
  | Turn e r :: events =>
      match main_turn e r s with
      | Goes_on s => main events s
      | Ends s => Ends s
      end
  | Sweep clock :: events =>
      main events (with_pCache (after (Reap clock (pCache s))) s)
  end.

Definition final (t : turned) : Program :=
  match t with
  | Goes_on s => s
  | Ends s => s
  end.

Definition ended (t : turned) : bool :=
  match t with
  | Goes_on _ => false
  | Ends _ => true
  end.

End program_loop.

(** *** Notions used in the statements about the program *)

Definition with_network (net : string → response) (e : env) : env :=
  {| clock_now := clock_now e; clock_pDex := clock_pDex e; network := net;
     dice_roll := dice_roll e; range_order := range_order e |}.

Definition with_dice (dice : Z) (e : env) : env :=
  {| clock_now := clock_now e; clock_pDex := clock_pDex e; network := network e;
     dice_roll := dice; range_order := range_order e |}.

(** A function of the program that neither reads nor writes the cache. *)
Definition cache_blind (f : command) : Prop :=
  ∀ c s, f (with_pCache c s) = ((f s).1, with_pCache c (f s).2).

(** A function of the program that does nothing but print. *)
Definition prints_only (f : command) : Prop :=
  ∀ s, ∃ lines,
    (f s).2 = {| pCache := pCache s; pDex := pDex s; api := api s;
                 stdout := stdout s ++ lines |}.

(** The calls that go through the cache, as the callbacks of [explore],
    [catch], [map] and [mapb] make them. *)
Inductive request : Type :=
| explore (param : string) (params : list string)
| catch (param : string) (params : list string)
| map_next
| map_prev.

(** The address a call asks the cache and the network for: [url] in
    [commandExplore], [commandCatch] and [commandMap]. *)
Definition request_url (r : request) (s : Program) : option string :=
  match r with
  | explore param _ => Some ("https://pokeapi.co/api/v2/location-area/" +:+ param)
  | catch param _ => Some ("https://pokeapi.co/api/v2/pokemon/" +:+ param)
  | map_next => NextURL (api s)
  | map_prev => PrevURL (api s)
  end.

(** Two states that differ in the cache at most. *)
Definition same_outside_cache (s s' : Program) : Prop :=
  pDex s = pDex s' ∧ api s = api s' ∧ stdout s = stdout s'.

(** Every entry of the cache holds the body that the network gives for
    its key, under a JSON content type. *)
Definition coherent (net : string → response) (c : Cache) : Prop :=
  ∀ k entry, entries c !! k = Some entry →
    ∃ contentType,
      net k = Response contentType (data entry) ∧
      strings_Contains contentType "application/json" = true.

(** The network gives the same answers in every turn. *)
Definition stable_network (net : string → response) (events : list event) : Prop :=
  Forall (λ ev, match ev with
                | Turn e _ => network e = net
                | Sweep _ => True
                end) events.

Definition is_turn (ev : event) : bool :=
  match ev with
  | Turn _ _ => true
  | Sweep _ => false
  end.

(** Two states that differ in the cache at most, with caches that hold
    nothing but what the network answers. *)
Definition related (net : string → response) (s s' : Program) : Prop :=
  same_outside_cache s s' ∧ coherent net (pCache s) ∧ coherent net (pCache s').

(** A run without the sweeps of the reaper. *)
Definition without_sweeps (events : list event) : list event :=
  List.filter is_turn events.

Section program_notions.

Context (json_PokeLoc : bytes → PokeLoc.t + string).
Context (json_PokeLocal : bytes → PokeLocal.t + string).
Context (json_Pokemon : bytes → Pokemon.t + string).

Definition invoke (e : env) (r : request) : command :=
  match r with
  | explore param params => commandExplore json_PokeLocal e (param :: params)
  | catch param params => commandCatch json_Pokemon e (param :: params)
  | map_next => commandMap json_PokeLoc e "next"
  | map_prev => commandMap json_PokeLoc e "prev"
  end.

(** The function a call hands the payload to. *)
Definition request_process (e : env) (r : request) : bytes → command :=
  match r with
  | explore _ _ => processExplore json_PokeLocal
  | catch _ _ => processCatch json_Pokemon e
  | map_next | map_prev => processResponse json_PokeLoc
  end.

(** What a call prints before it turns to the cache. *)
Definition request_announce (r : request) (s : Program) : Program :=
  match r with
  | explore param _ => print (Println ["Exploring location:"; param]) s
  | _ => s
  end.

(** The decoder that a call applies to the payload fails on [body] with
    [message]. *)
Definition undecodable (r : request) (body : bytes) (message : string) : Prop :=
  match r with
  | explore _ _ => json_PokeLocal body = inr message
  | catch _ _ => json_Pokemon body = inr message
  | map_next | map_prev => json_PokeLoc body = inr message
  end.

(** Every entry of the pokedex holds a payload that decodes to a
    pokemon, and is stored under the name of that pokemon. *)
Definition decodes (p : pokedex.pokedex) : Prop :=
  ∀ k entry, pokedex.entries p !! k = Some entry →
    ∃ pokemon,
      json_Pokemon (pokedex.data entry) = inl pokemon ∧
      Pokemon.Name pokemon = k.

End program_notions.

(** *** Values for the examples *)

(** Two bodies: one that stands for a JSON object, and [payload12],
    which no decoder accepts. *)
Definition body_object : bytes := [Byte.x7b; Byte.x7d].

Definition pikachu : Pokemon.t :=
  {| Pokemon.ID := 25;
     Pokemon.Name := "pikachu";
     Pokemon.BaseExperience := 112;
     Pokemon.Height := 4;
     Pokemon.IsDefault := true;
     Pokemon.Order := 35;
     Pokemon.Weight := 60;
     Pokemon.Abilities := [];
     Pokemon.Forms := [];
     Pokemon.LocationAreaEncounters :=
       "https://pokeapi.co/api/v2/pokemon/25/encounters";
     Pokemon.Moves := [];
     Pokemon.Species :=
       {| Name := "pikachu";
          URL := "https://pokeapi.co/api/v2/pokemon-species/25/" |};
     Pokemon.Cries := {| Pokemon.Latest := "latest.ogg"; Pokemon.Legacy := "legacy.ogg" |};
     Pokemon.Stats :=
       [{| Pokemon.BaseStat := 35; Pokemon.Effort := 0;
           Pokemon.Stat := {| Name := "hp";
                              URL := "https://pokeapi.co/api/v2/stat/1/" |} |}];
     Pokemon.Types :=
       [{| Pokemon.type_Slot := 1;
           Pokemon.Type_ := {| Name := "electric";
                               URL := "https://pokeapi.co/api/v2/type/13/" |} |}] |}.

(** Decoders for the examples: a body that begins with a brace decodes
    to one fixed value, any other body is refused. *)
Definition demo_decoder {A} (value : A) (data : bytes) : A + string :=
  match data with
  | [] => inr "unexpected end of JSON input"
  | Byte.x7b :: _ => inl value
  | _ => inr "invalid character looking for beginning of value"
  end.

Definition demo_json_Pokemon : bytes → Pokemon.t + string :=
  demo_decoder pikachu.

Definition demo_json_PokeLocal : bytes → PokeLocal.t + string :=
  demo_decoder
    {| PokeLocal.ID := 1;
       PokeLocal.Name := "canalave-city-area";
       PokeLocal.PokemonEncounters :=
         [{| PokeLocal.Pokemon :=
               {| Name := "tentacool";
                  URL := "https://pokeapi.co/api/v2/pokemon/72/" |} |}] |}.

Definition demo_json_PokeLoc : bytes → PokeLoc.t + string :=
  demo_decoder
    {| PokeLoc.Count := 1089;
       PokeLoc.Next := Some "https://pokeapi.co/api/v2/location-area?offset=20&limit=20";
       PokeLoc.Previous := None;
       PokeLoc.Results :=
         [{| Name := "canalave-city-area";
             URL := "https://pokeapi.co/api/v2/location-area/1/" |}] |}.

(** A network for the examples: two addresses answer with a JSON
    object, one with a JSON content type and a body that is no JSON,
    every other one with a plain text. *)
Definition demo_network (url : string) : response :=
  if bool_decide (url = "https://pokeapi.co/api/v2/pokemon/25") then
    Response "application/json; charset=utf-8" body_object
  else if bool_decide (url = "https://pokeapi.co/api/v2/location-area/1") then
    Response "application/json; charset=utf-8" body_object
  else if bool_decide (url = "https://pokeapi.co/api/v2/location-area/2") then
    Response "application/json; charset=utf-8" payload12
  else
    Response "text/plain; charset=utf-8" [].

Definition offline (url : string) : response :=
  GetFails "dial tcp: lookup pokeapi.co: no such host".

Definition demo_env : env :=
  {| clock_now := time.Minute;
     clock_pDex := time.Minute + time.Second;
     network := demo_network;
     dice_roll := 3;
     range_order := [] |}.

(** The address of [catch 25], and the state after [catch 25] on a new
    program. *)
Definition url_25 : string := "https://pokeapi.co/api/v2/pokemon/25".

Definition after_catch : Program :=
  (commandCatch demo_json_Pokemon demo_env ["25"] (init 0)).2.

(** The cache that holds the answer for [catch 25] and nothing else. *)
Definition cache_25 : Cache :=
  after (Add time.Minute url_25 body_object {| entries := ∅ |}).

(** A run: a catch, a sweep ten minutes on, and a call that fetches a
    body that does not decode. *)
Definition demo_events : list event :=
  [Turn demo_env (ReadString "catch 25");
   Sweep (λ _, 10 * time.Minute);
   Turn demo_env (ReadString "explore 2")].

(** Stand-ins for [strings.TrimSpace] and [strings.Fields] on lines
    without space at the ends. *)
Definition demo_TrimSpace (s : string) : string := s.
Definition demo_Fields (s : string) : list string := String.words s.

(** ** Proof tools *)

(** The methods are used through their lemmas. *)
#[local] Arguments after : simpl never.
#[local] Arguments returned : simpl never.

(** Case analysis on a step that is taken. *)
Ltac step_inv H :=
  match type of H with
  | step ?eps ?a ?w = Some ?w' =>
      let r := fresh "r" in
      let Hr := fresh "Hr" in
      let Hdue := fresh "Hdue" in
      let Hpass := fresh "Hpass" in
      destruct a as [?d|?key ?data|?key| | |?i]; cbn [step] in H;
      [ destruct (may_pass eps _ w) eqn:Hpass; [|discriminate H]
      | | | |
      | destruct (wreapers w !! _) as [r|] eqn:Hr; [|discriminate H];
        destruct (r <=? wnow w) eqn:Hdue; [|discriminate H] ];
      injection H as <-; cbn [wnow wcache wreapers] in *
  end.

(** ** The clock *)

Lemma ttl_value : ttl = 300000000000.
Proof. reflexivity. Qed.

Lemma ttl_in_range : time.minDuration ≤ ttl < time.maxDuration.
Proof. rewrite ttl_value. unfold time.minDuration, time.maxDuration. lia. Qed.

(** The saturation of [Sub] is out of reach of the comparison with
    [ttl]: an entry is stale when its age, as an integer, exceeds [ttl]. *)
Lemma stale_true now e : stale now e = true ↔ ttl < now - createdAt e.
Proof.
  pose proof ttl_in_range as Hr.
  unfold stale, time.Since, time.Sub.
  destruct (Z.ltb_spec time.maxDuration (now - createdAt e));
    [|destruct (Z.ltb_spec (now - createdAt e) time.minDuration)];
    rewrite Z.ltb_lt; lia.
Qed.

Lemma stale_false now e : stale now e = false ↔ now - createdAt e ≤ ttl.
Proof. rewrite <- not_true_iff_false, stale_true. lia. Qed.

(** Staleness only grows with time. *)
Lemma stale_mono now now' e : now ≤ now' → stale now e = true → stale now' e = true.
Proof. rewrite !stale_true. lia. Qed.

(** ** The sweep *)

Section sweep.
Context (clock : string → time.Time).

Implicit Types (m : gmap string cacheEntry) (visit : list (string * cacheEntry)).

(** The loop inserts nothing and changes no entry. *)
Lemma reap_range_lookup_Some visit m k e :
  reap_range clock visit m !! k = Some e → m !! k = Some e.
Proof.
  revert m. induction visit as [|[k' e'] visit IH]; intros m; [done|].
  cbn [reap_range foldl]. intros H. apply IH in H.
  unfold reap_body in H. cbn in H.
  destruct (stale (clock k') e'); [|done].
  apply lookup_delete_Some in H. tauto.
Qed.

(** A visited stale entry is gone after the loop. *)
Lemma reap_range_lookup_stale visit m k e :
  (k, e) ∈ visit → stale (clock k) e = true →
  reap_range clock visit m !! k = None.
Proof.
  revert m. induction visit as [|[k' e'] visit IH]; intros m Hin Hs.
  - by apply elem_of_nil in Hin.
  - cbn [reap_range foldl]. apply elem_of_cons in Hin as [Heq|Hin].
    + injection Heq as <- <-. unfold reap_body. cbn. rewrite Hs.
      destruct (foldl (reap_body clock) (delete k m) visit !! k) as [e0|] eqn:H0; [|done].
      apply reap_range_lookup_Some in H0. by rewrite lookup_delete_eq in H0.
    + by apply IH.
Qed.

(** An entry that is fresh whenever it is visited stays. *)
Lemma reap_range_lookup_fresh visit m k :
  (∀ e, (k, e) ∈ visit → stale (clock k) e = false) →
  reap_range clock visit m !! k = m !! k.
Proof.
  revert m. induction visit as [|[k' e'] visit IH]; intros m Hf; [done|].
  cbn [reap_range foldl]. fold (reap_range clock visit (reap_body clock m (k', e'))).
  rewrite IH.
  - unfold reap_body. cbn. destruct (stale (clock k') e') eqn:Hs; [|done].
    destruct (decide (k' = k)) as [->|Hne].
    + rewrite Hf in Hs; [done | left].
    + by rewrite lookup_delete_ne.
  - intros e He. apply Hf. by right.
Qed.

(** In whatever order the loop visits the entries of the map, it
    leaves the entries that are fresh at their visit. *)
Lemma reap_range_lookup visit m k :
  visit ≡ₚ map_to_list m →
  reap_range clock visit m !! k =
    match m !! k with
    | Some e => if stale (clock k) e then None else Some e
    | None => None
    end.
Proof.
  intros Hp. destruct (m !! k) as [e|] eqn:Hk.
  - destruct (stale (clock k) e) eqn:Hs.
    + apply reap_range_lookup_stale with e; [|done].
      rewrite Hp. by apply elem_of_map_to_list.
    + rewrite reap_range_lookup_fresh; [done|].
      intros e' He'. rewrite Hp in He'. apply elem_of_map_to_list in He'.
      congruence.
  - destruct (reap_range clock visit m !! k) as [e|] eqn:H0; [|done].
    apply reap_range_lookup_Some in H0. congruence.
Qed.

Lemma reap_range_order visit visit' m :
  visit ≡ₚ map_to_list m → visit' ≡ₚ map_to_list m →
  reap_range clock visit m = reap_range clock visit' m.
Proof.
  intros H H'. apply map_eq. intros k. by rewrite !reap_range_lookup.
Qed.

Lemma Reap_lookup c k :
  entries (after (Reap clock c)) !! k =
    match entries c !! k with
    | Some e => if stale (clock k) e then None else Some e
    | None => None
    end.
Proof. cbn. by apply reap_range_lookup. Qed.

Lemma Reap_lookup_Some c k e :
  entries (after (Reap clock c)) !! k = Some e → entries c !! k = Some e.
Proof. cbn. apply reap_range_lookup_Some. Qed.

End sweep.

(** ** Properties of the methods *)

Lemma Add_lookup now k p c :
  entries (after (Add now k p c)) !! k = Some {| createdAt := now; data := p |}.
Proof. cbn. apply lookup_insert_eq. Qed.

Lemma Add_lookup_ne now k k' p c :
  k ≠ k' → entries (after (Add now k p c)) !! k' = entries c !! k'.
Proof. intros Hne. cbn. by apply lookup_insert_ne. Qed.

Lemma Get_hit k c e :
  entries c !! k = Some e → Get k c = ((data e, no_error), c).
Proof. intros H. unfold Get. by rewrite H. Qed.

Lemma Get_miss k c :
  entries c !! k = None → Get k c = (([], errors_New "key not found"), c).
Proof. intros H. unfold Get. by rewrite H. Qed.

Lemma Get_after k c : after (Get k c) = c.
Proof. unfold Get. by destruct (entries c !! k). Qed.

Lemma Cache_eq c c' : entries c = entries c' → c = c'.
Proof. destruct c, c'. cbn. by intros ->. Qed.

Lemma entries_of_lookup k c e :
  entries c !! k = Some e → entries_of k c = [(k, e)].
Proof.
  intros Hk. unfold entries_of.
  assert (Hnd : NoDup (filter (λ kv : string * cacheEntry, kv.1 = k)
                         (map_to_list (entries c)))).
  { apply NoDup_filter, NoDup_map_to_list. }
  assert (Hall : ∀ kv, kv ∈ filter (λ kv : string * cacheEntry, kv.1 = k)
                          (map_to_list (entries c)) ↔ kv = (k, e)).
  { intros [k' e']. rewrite list_elem_of_filter, elem_of_map_to_list. cbn.
    split.
    - intros [-> He']. congruence.
    - intros [= -> ->]. done. }
  destruct (filter _ _) as [|kv [|kv' l]].
  - exfalso. eapply not_elem_of_nil. apply Hall. reflexivity.
  - f_equal. apply Hall. left.
  - exfalso. apply NoDup_cons in Hnd as [Hnotin _].
    apply Hnotin. assert (kv = (k, e)) as -> by (apply Hall; left).
    assert (kv' = (k, e)) as -> by (apply Hall; right; left). left.
Qed.

(** C1.  Round trip: for every key [k] and payload [p], [Add(k, p)]
    followed at once by [Get(k)] returns [p], byte for byte, and no
    error. *)
Theorem Add_then_Get now k p c :
  returned (Get k (after (Add now k p c))) = (p, no_error).
Proof.
  rewrite (Get_hit k _ {| createdAt := now; data := p |}); [done|].
  apply Add_lookup.
Qed.

(** C2.  At every cache state and every current time [now], [Reap]
    removes exactly the entries whose age [now - createdAt] is more than
    [ttl] (five minutes), and keeps, as they are, the entries whose age
    is at most [ttl]; a key without an entry stays without one. *)
Theorem Reap_removes_exactly_the_stale now c k :
  ttl = 5 * time.Minute ∧
  entries (after (Reap_at now c)) !! k =
    match entries c !! k with
    | Some e => if decide (ttl < now - createdAt e) then None else Some e
    | None => None
    end.
Proof.
  split; [done|]. unfold Reap_at. rewrite Reap_lookup.
  destruct (entries c !! k) as [e|]; [|done].
  destruct (stale now e) eqn:Hs.
  - apply stale_true in Hs. by rewrite decide_True.
  - apply stale_false in Hs. rewrite decide_False; [done | lia].
Qed.

(** C5.  Replacement: after [Add(k, p1)] and then [Add(k, p2)] the map
    holds one entry for [k], with payload [p2] and the timestamp of the
    second [Add]; nothing of the first [Add] is left, the cache is the
    one the second [Add] alone would have made; [Get(k)] returns [p2]. *)
Theorem Add_replaces now1 now2 k p1 p2 c :
  let c2 := after (Add now2 k p2 (after (Add now1 k p1 c))) in
  entries c2 !! k = Some {| createdAt := now2; data := p2 |} ∧
  entries_of k c2 = [(k, {| createdAt := now2; data := p2 |})] ∧
  c2 = after (Add now2 k p2 c) ∧
  returned (Get k c2) = (p2, no_error).
Proof.
  intros c2. assert (Hk : entries c2 !! k = Some {| createdAt := now2; data := p2 |})
    by apply Add_lookup.
  split_and!.
  - done.
  - by apply entries_of_lookup.
  - apply Cache_eq. cbn. apply insert_insert_eq.
  - by rewrite (Get_hit _ _ _ Hk).
Qed.

(** The sweep is idempotent for any clock readings taken the same in
    both sweeps. *)
Lemma Reap_Reap clock c :
  after (Reap clock (after (Reap clock c))) = after (Reap clock c).
Proof.
  apply Cache_eq, map_eq. intros k. rewrite !Reap_lookup.
  destruct (entries c !! k) as [e|]; [|done].
  destruct (stale (clock k) e) eqn:Hs; [done | by rewrite Hs].
Qed.

(** C7.  [Reap] is idempotent: at a fixed current time, a second sweep
    right after the first, with no insertion in between, removes
    nothing; the cache is as after one sweep. *)
Theorem Reap_idempotent now c :
  Reap_at now (after (Reap_at now c)) = Reap_at now c.
Proof.
  unfold Reap_at, Reap. f_equal. apply (Reap_Reap (λ _, now) c).
Qed.

(** C8.  [Get] does not modify the cache: hit or miss, the cache after
    the call is the cache before it, entry by entry, payloads and
    timestamps included; so a sweep after a [Get] does what it would
    have done without the [Get]. *)
Theorem Get_does_not_modify k c :
  after (Get k c) = c ∧
  (∀ k', entries (after (Get k c)) !! k' = entries c !! k') ∧
  (∀ clock, Reap clock (after (Get k c)) = Reap clock c).
Proof. rewrite Get_after. done. Qed.

(** C10.  [Reap] inserts nothing and alters nothing: whatever the clock
    readings of the sweep, an entry found after it was there before it
    with the same payload and timestamp, and the keys after it are among
    the keys before it. *)
Theorem Reap_frame clock c :
  entries (after (Reap clock c)) ⊆ entries c ∧
  dom (entries (after (Reap clock c))) ⊆ dom (entries c) ∧
  (∀ k e, entries (after (Reap clock c)) !! k = Some e → entries c !! k = Some e).
Proof.
  assert (H : ∀ k e, entries (after (Reap clock c)) !! k = Some e →
                     entries c !! k = Some e).
  { intros k e. apply Reap_lookup_Some. }
  assert (Hsub : entries (after (Reap clock c)) ⊆ entries c).
  { apply map_subseteq_spec. exact H. }
  split_and!; [done | | done]. by apply subseteq_dom.
Qed.

(** ** Properties of the cache over time *)

Lemma may_pass_spec eps d w :
  may_pass eps d w = true ↔ 0 ≤ d ∧ ∀ r, r ∈ wreapers w → wnow w + d < r + eps.
Proof.
  unfold may_pass. rewrite andb_true_iff, Z.leb_le, forallb_forall.
  setoid_rewrite Z.ltb_lt. setoid_rewrite <- list_elem_of_In. done.
Qed.

(** The clock never runs backwards. *)
Lemma step_now_mono eps a w w' : step eps a w = Some w' → wnow w ≤ wnow w'.
Proof.
  intros H. step_inv H; try lia.
  apply may_pass_spec in Hpass. lia.
Qed.

Lemma run_now_mono eps l w w' : run eps l w = Some w' → wnow w ≤ wnow w'.
Proof.
  revert w. induction l as [|a l IH]; intros w H; cbn in H.
  - injection H as <-. lia.
  - destruct (step eps a w) as [w1|] eqn:Hs; [|done].
    apply step_now_mono in Hs. apply IH in H. lia.
Qed.

Lemma existsb_cons_false {A} (f : A → bool) a l :
  existsb f (a :: l) = false → f a = false ∧ existsb f l = false.
Proof. cbn. apply orb_false_iff. Qed.

(** A key without an entry gets one by [Add] only. *)
Lemma step_keeps_absent eps a w w' k :
  step eps a w = Some w' → adds k a = false →
  entries (wcache w) !! k = None → entries (wcache w') !! k = None.
Proof.
  intros H Ha Hk. step_inv H; try done.
  - cbn in Ha. apply bool_decide_eq_false in Ha.
    by rewrite Add_lookup_ne.
  - by rewrite Get_after.
  - unfold Reap_at. by rewrite Reap_lookup, Hk.
  - unfold Reap_at. by rewrite Reap_lookup, Hk.
Qed.

Lemma run_keeps_absent eps l w w' k :
  run eps l w = Some w' → existsb (adds k) l = false →
  entries (wcache w) !! k = None → entries (wcache w') !! k = None.
Proof.
  revert w. induction l as [|a l IH]; intros w H Hl Hk; cbn in H.
  - by injection H as <-.
  - destruct (step eps a w) as [w1|] eqn:Hs; [|done].
    apply existsb_cons_false in Hl as [Ha Hl].
    eapply IH; [done.. |]. by eapply step_keeps_absent.
Qed.

(** An entry that is not stale yet outlives the step, unless its key is
    added again. *)
Lemma step_keeps_fresh eps a w w' k e :
  step eps a w = Some w' → adds k a = false →
  entries (wcache w) !! k = Some e → wnow w - createdAt e ≤ ttl →
  entries (wcache w') !! k = Some e.
Proof.
  intros H Ha Hk Hage. apply stale_false in Hage. step_inv H; try done.
  - cbn in Ha. apply bool_decide_eq_false in Ha.
    by rewrite Add_lookup_ne.
  - by rewrite Get_after.
  - unfold Reap_at. by rewrite Reap_lookup, Hk, Hage.
  - unfold Reap_at. by rewrite Reap_lookup, Hk, Hage.
Qed.

(** No step changes an entry: what is found after it under a key that
    was not added was there before it. *)
Lemma step_lookup_Some eps a w w' k e :
  step eps a w = Some w' → adds k a = false →
  entries (wcache w') !! k = Some e → entries (wcache w) !! k = Some e.
Proof.
  intros H Ha Hk. step_inv H; try done.
  - cbn in Ha. apply bool_decide_eq_false in Ha.
    by rewrite Add_lookup_ne in Hk.
  - by rewrite Get_after in Hk.
  - by apply Reap_lookup_Some in Hk.
  - by apply Reap_lookup_Some in Hk.
Qed.

Lemma run_keeps_fresh eps l w w' k e :
  run eps l w = Some w' → existsb (adds k) l = false →
  entries (wcache w) !! k = Some e → wnow w' - createdAt e ≤ ttl →
  entries (wcache w') !! k = Some e.
Proof.
  revert w. induction l as [|a l IH]; intros w H Hl Hk Hage; cbn in H.
  - by injection H as <-.
  - destruct (step eps a w) as [w1|] eqn:Hs; [|done].
    apply existsb_cons_false in Hl as [Ha Hl].
    pose proof (step_now_mono _ _ _ _ Hs). pose proof (run_now_mono _ _ _ _ H).
    eapply IH; [done.. | | done].
    eapply step_keeps_fresh; [done.. |]. lia.
Qed.

Lemma step_reapers_length eps a w w' :
  step eps a w = Some w' →
  length (wreapers w') =
    ((if starts_reaper a then 1 else 0) + length (wreapers w))%nat.
Proof.
  intros H. step_inv H; cbn [starts_reaper]; try done.
  - rewrite length_app. cbn. lia.
  - by rewrite length_insert.
Qed.

Lemma run_reapers_length eps l w w' :
  run eps l w = Some w' →
  length (wreapers w') = (loops_started l + length (wreapers w))%nat.
Proof.
  revert w. induction l as [|a l IH]; intros w H; cbn in H.
  - by injection H as <-.
  - destruct (step eps a w) as [w1|] eqn:Hs; [|done].
    apply IH in H. apply step_reapers_length in Hs.
    unfold loops_started in *. cbn [List.filter].
    destruct (starts_reaper a); cbn [length]; lia.
Qed.

Lemma elem_of_insert_inv (l : list reaper) i x y :
  y ∈ <[i:=x]> l → y = x ∨ y ∈ l.
Proof.
  intros [j Hj]%list_elem_of_lookup.
  apply list_lookup_insert_Some in Hj as [(_ & -> & _)|(_ & Hj)]; [by left|].
  right. by eapply list_elem_of_lookup_2.
Qed.

Lemma elem_of_insert_new (l : list reaper) i x r :
  l !! i = Some r → x ∈ <[i:=x]> l.
Proof.
  intros Hi. apply list_elem_of_lookup. exists i.
  apply list_lookup_insert_eq. by eapply lookup_lt_Some.
Qed.

Lemma sweepInterval_pos : 0 < sweepInterval.
Proof. reflexivity. Qed.

Lemma ttl_pos : 0 < ttl.
Proof. reflexivity. Qed.

Lemma NewCache_sleep_bounded t0 : sleep_bounded (NewCache t0).
Proof. intros r ->%list_elem_of_singleton. unfold ReapLoop_sleep. cbn. lia. Qed.

Lemma NewCache_on_time eps t0 : 0 ≤ eps → on_time eps (NewCache t0).
Proof.
  intros He r ->%list_elem_of_singleton. pose proof sweepInterval_pos.
  unfold ReapLoop_sleep. cbn. lia.
Qed.

Lemma step_sleep_bounded eps a w w' :
  step eps a w = Some w' → sleep_bounded w → sleep_bounded w'.
Proof.
  unfold sleep_bounded. intros H Hb. step_inv H; try done.
  - apply may_pass_spec in Hpass as [Hd _]. intros r Hr. apply Hb in Hr. lia.
  - intros r [Hr| ->%list_elem_of_singleton]%elem_of_app; [by apply Hb|].
    unfold ReapLoop_sleep. lia.
  - intros r' [->|Hr']%elem_of_insert_inv; [|by apply Hb].
    unfold ReapLoop_turn, ReapLoop_sleep. cbn. lia.
Qed.

Lemma step_on_time eps a w w' :
  0 ≤ eps → step eps a w = Some w' → on_time eps w → on_time eps w'.
Proof.
  unfold on_time. intros He H Hb. pose proof sweepInterval_pos. step_inv H; try done.
  - by apply may_pass_spec in Hpass as [_ Hd].
  - intros r [Hr| ->%list_elem_of_singleton]%elem_of_app; [by apply Hb|].
    unfold ReapLoop_sleep. lia.
  - intros r' [->|Hr']%elem_of_insert_inv; [|by apply Hb].
    unfold ReapLoop_turn, ReapLoop_sleep. cbn. lia.
Qed.

Lemma run_invariant (P : World → Prop) eps l w w' :
  (∀ a w1 w2, step eps a w1 = Some w2 → P w1 → P w2) →
  run eps l w = Some w' → P w → P w'.
Proof.
  intros Hstep. revert w. induction l as [|a l IH]; intros w H Hw; cbn in H.
  - by injection H as <-.
  - destruct (step eps a w) as [w1|] eqn:Hs; [|done]. eauto.
Qed.

Lemma step_doomed eps a w w' T k :
  step eps a w = Some w' → adds k a = false → doomed T k w → doomed T k w'.
Proof.
  intros H Ha Hd e He.
  assert (Hbefore : entries (wcache w) !! k = Some e)
    by (by eapply step_lookup_Some).
  destruct (Hd e Hbefore) as (HT & r0 & Hr0 & Hle). split; [done|].
  step_inv H; eauto.
  - exists r0. split; [|done]. apply elem_of_app. by left.
  - exists (ReapLoop_sleep (wnow w)). split; [by eapply elem_of_insert_new|].
    unfold Reap_at in He. rewrite Reap_lookup, Hbefore in He.
    destruct (stale (wnow w) e) eqn:Hs; [done|]. apply stale_false in Hs.
    unfold ReapLoop_sleep. lia.
Qed.

Lemma run_doomed eps l w w' T k :
  run eps l w = Some w' → existsb (adds k) l = false →
  doomed T k w → doomed T k w'.
Proof.
  revert w. induction l as [|a l IH]; intros w H Hl Hd; cbn in H.
  - by injection H as <-.
  - destruct (step eps a w) as [w1|] eqn:Hs; [|done].
    apply existsb_cons_false in Hl as [Ha Hl].
    eapply IH; [done.. |]. by eapply step_doomed.
Qed.

(** C3.  Expiry lower bound: an entry added at time [T] and not added
    again is returned by [Get] at every time strictly before [T + ttl],
    whatever happened in between: sweeps of the reapers, calls of
    [Reap], calls of [Get], calls of [Add] on other keys. *)
Theorem expiry_lower_bound eps k p l w w' :
  run eps (CallAdd k p :: l) w = Some w' →
  existsb (adds k) l = false →
  wnow w' < wnow w + ttl →
  returned (Get k (wcache w')) = (p, no_error).
Proof.
  intros H Hl Hlt. cbn [run step] in H.
  rewrite (Get_hit k _ {| createdAt := wnow w; data := p |}); [done|].
  eapply run_keeps_fresh; [done.. | apply Add_lookup | cbn; lia].
Qed.

(** C4.  Expiry upper bound: when every reaper wakes less than [eps]
    after its sleep is over, an entry added at time [T] and not added
    again is gone at every time from [T + ttl + sweepInterval + eps]
    on: [Get] returns the miss. *)
Theorem expiry_upper_bound eps t0 pre k p post w w' :
  0 ≤ eps →
  run eps pre (NewCache t0) = Some w →
  run eps (CallAdd k p :: post) w = Some w' →
  existsb (adds k) post = false →
  wnow w + ttl + sweepInterval + eps ≤ wnow w' →
  returned (Get k (wcache w')) = ([], errors_New "key not found").
Proof.
  intros He Hpre Hpost Hl Hlate.
  assert (Hb : sleep_bounded w).
  { eapply run_invariant; [apply step_sleep_bounded | done | apply NewCache_sleep_bounded]. }
  assert (Ht : on_time eps w).
  { eapply run_invariant; [intros a w1 w2; by apply step_on_time | done | by apply NewCache_on_time]. }
  assert (Hsome : ∃ r, r ∈ wreapers w).
  { apply run_reapers_length in Hpre. cbn in Hpre.
    destruct (wreapers w) as [|r rs]; [cbn in Hpre; lia|]. exists r. left. }
  cbn [run step] in Hpost.
  set (w1 := {| wnow := wnow w;
                wcache := after (Add (wnow w) k p (wcache w));
                wreapers := wreapers w |}) in Hpost.
  assert (Hd : doomed (wnow w) k w').
  { eapply run_doomed; [done.. |]. intros e. unfold w1. cbn [wcache wreapers].
    rewrite Add_lookup. intros [= <-]. split; [done|].
    destruct Hsome as [r Hr]. exists r. split; [done|].
    apply Hb in Hr. pose proof ttl_pos. lia. }
  assert (Ht' : on_time eps w').
  { eapply run_invariant; [intros a ? ?; by apply step_on_time | done | done]. }
  destruct (entries (wcache w') !! k) as [e|] eqn:Hk.
  - destruct (Hd e Hk) as (_ & r & Hr & Hle). apply Ht' in Hr. lia.
  - by rewrite Get_miss.
Qed.

(** C6.  Miss on an unknown key: on a cache on which [Add] was never
    called with key [k], a new cache among them, [Get(k)] returns no
    payload and the error value "key not found"; it returns, and leaves
    the cache as it was. *)
Theorem Get_unknown_key eps t0 l w k :
  run eps l (NewCache t0) = Some w →
  existsb (adds k) l = false →
  Get k (wcache w) = (([], errors_New "key not found"), wcache w).
Proof.
  intros H Hl. apply Get_miss. by eapply run_keeps_absent.
Qed.

(** C9, as the specification has it: no cache ever has more than one reaper.
    This fails: [ReapLoop] is an exported method without a guard, and a
    caller who starts it on a new cache gives the cache a second
    reaper. *)
Lemma ReapLoop_invokable_again :
  ¬ (∀ eps t0 l w,
       run eps l (NewCache t0) = Some w → (length (wreapers w) ≤ 1)%nat).
Proof.
  intros H. specialize (H 0 0 [GoReapLoop] _ eq_refl). cbn in H. lia.
Qed.

(** C9, amended.  A new cache has one reaper, started by [NewCache];
    [ReapLoop] can be started again at any time, and every start adds a
    reaper: a cache has one reaper more than [ReapLoop] was started on
    it by callers. *)
Theorem reapers_of_a_cache eps t0 l w :
  run eps l (NewCache t0) = Some w →
  wreapers (NewCache t0) = [ReapLoop_sleep t0] ∧
  is_Some (step eps GoReapLoop w) ∧
  length (wreapers w) = S (loops_started l).
Proof.
  intros H. split_and!; [done | by eexists |].
  apply run_reapers_length in H. cbn in H. lia.
Qed.

(** ** The theorems at concrete runs *)

(** An entry made at minute 4 is swept at minute 5 by the reaper and at
    minute 8 by a caller, and is still there. *)
Lemma expiry_lower_bound_witness :
  let w := {| wnow := 4 * time.Minute;
              wcache := {| entries := ∅ |};
              wreapers := [5 * time.Minute] |} in
  let l := [Pass time.Minute; Wake 0; Pass (3 * time.Minute); CallReap;
            CallAdd "b" []; CallGet "a"] in
  let w' := {| wnow := 8 * time.Minute;
               wcache := {| entries :=
                 <["b" := {| createdAt := 8 * time.Minute; data := [] |}]>
                   {["a" := {| createdAt := 4 * time.Minute; data := payload12 |}]} |};
               wreapers := [10 * time.Minute] |} in
  run time.Second (CallAdd "a" payload12 :: l) w = Some w' ∧
  existsb (adds "a") l = false ∧
  wnow w' < wnow w + ttl ∧
  returned (Get "a" (wcache w')) = (payload12, no_error).
Proof.
  intros w l w'.
  assert (Hrun : run time.Second (CallAdd "a" payload12 :: l) w = Some w')
    by (vm_compute; reflexivity).
  split_and!; [exact Hrun | reflexivity | reflexivity |].
  apply (expiry_lower_bound time.Second "a" payload12 l w w' Hrun);
    reflexivity.
Defined.

(** An entry made at minute 1 outlives the sweep at minute 5, is removed
    by the sweep at minute 10, and is missed one second past minute 11. *)
Lemma expiry_upper_bound_witness :
  let pre := [Pass time.Minute; CallGet "a"] in
  let w := {| wnow := time.Minute;
              wcache := {| entries := ∅ |};
              wreapers := [5 * time.Minute] |} in
  let post := [Pass (4 * time.Minute); Wake 0; CallGet "a";
               Pass (5 * time.Minute); Wake 0;
               Pass (time.Minute + time.Second)] in
  let w' := {| wnow := 11 * time.Minute + time.Second;
               wcache := {| entries := ∅ |};
               wreapers := [15 * time.Minute] |} in
  0 ≤ time.Second ∧
  run time.Second pre (NewCache 0) = Some w ∧
  run time.Second (CallAdd "a" payload12 :: post) w = Some w' ∧
  existsb (adds "a") post = false ∧
  wnow w + ttl + sweepInterval + time.Second ≤ wnow w' ∧
  returned (Get "a" (wcache w')) = ([], errors_New "key not found").
Proof.
  intros pre w post w'.
  assert (Heps : 0 ≤ time.Second) by (vm_compute; discriminate).
  assert (Hpre : run time.Second pre (NewCache 0) = Some w)
    by (vm_compute; reflexivity).
  assert (Hpost : run time.Second (CallAdd "a" payload12 :: post) w = Some w')
    by (vm_compute; reflexivity).
  assert (Hlate : wnow w + ttl + sweepInterval + time.Second ≤ wnow w')
    by (vm_compute; discriminate).
  split_and!; [exact Heps | exact Hpre | exact Hpost | reflexivity | exact Hlate |].
  apply (expiry_upper_bound time.Second 0 pre "a" payload12 post w w'
           Heps Hpre Hpost eq_refl Hlate).
Defined.

(** The first sweep of that run, at minute 5, finds the entry at age
    four minutes and keeps it. *)
Example expiry_upper_bound_midway :
  run time.Second
    [Pass time.Minute; CallAdd "a" payload12; Pass (4 * time.Minute); Wake 0]
    (NewCache 0) =
  Some {| wnow := 5 * time.Minute;
          wcache := {| entries :=
            {["a" := {| createdAt := time.Minute; data := payload12 |}]} |};
          wreapers := [10 * time.Minute] |}.
Proof. vm_compute. reflexivity. Qed.

Lemma Get_unknown_key_witness :
  let l := [Pass time.Minute; CallAdd "b" payload12; CallGet "a"; CallReap] in
  let w := {| wnow := time.Minute;
              wcache := {| entries :=
                {["b" := {| createdAt := time.Minute; data := payload12 |}]} |};
              wreapers := [5 * time.Minute] |} in
  run time.Second l (NewCache 0) = Some w ∧
  existsb (adds "a") l = false ∧
  Get "a" (wcache w) = (([], errors_New "key not found"), wcache w).
Proof.
  intros l w.
  assert (Hrun : run time.Second l (NewCache 0) = Some w)
    by (vm_compute; reflexivity).
  split_and!; [exact Hrun | reflexivity |].
  apply (Get_unknown_key time.Second 0 l w "a" Hrun). reflexivity.
Defined.

(** A cache on which [ReapLoop] was started twice more has three
    reapers. *)
Lemma reapers_of_a_cache_witness :
  let l := [GoReapLoop; Pass time.Minute; GoReapLoop] in
  let w := {| wnow := time.Minute;
              wcache := {| entries := ∅ |};
              wreapers := [5 * time.Minute; 5 * time.Minute; 6 * time.Minute] |} in
  run time.Second l (NewCache 0) = Some w ∧
  wreapers (NewCache 0) = [ReapLoop_sleep 0] ∧
  is_Some (step time.Second GoReapLoop w) ∧
  length (wreapers w) = 3%nat.
Proof.
  intros l w.
  assert (Hrun : run time.Second l (NewCache 0) = Some w)
    by (vm_compute; reflexivity).
  split; [exact Hrun|].
  apply (reapers_of_a_cache time.Second 0 l w Hrun).
Defined.

(** ** The methods at concrete caches *)

(** At minute 6 the entry of minute 0 is removed; the entry of minute 1
    is five minutes old, which is not more than [ttl], and stays. *)
Example Reap_three_entries :
  after (Reap_at (6 * time.Minute) three_entries) =
  after (Add (3 * time.Minute) "new" []
    (after (Add time.Minute "edge" payload12 {| entries := ∅ |}))).
Proof. vm_compute. reflexivity. Qed.

Example stale_at_ttl :
  stale ttl {| createdAt := 0; data := [] |} = false ∧
  stale (ttl + 1) {| createdAt := 0; data := [] |} = true.
Proof. split; reflexivity. Qed.

Example Sub_saturates :
  time.Sub (2 ^ 63 - 1) (- 2 ^ 63) = time.maxDuration ∧
  time.Sub (- 2 ^ 63) (2 ^ 63 - 1) = time.minDuration.
Proof. split; reflexivity. Qed.

Example Get_three_entries :
  returned (Get "edge" three_entries) = (payload12, no_error) ∧
  returned (Get "new" three_entries) = ([], no_error) ∧
  returned (Get "none" three_entries) = ([], errors_New "key not found").
Proof. split_and!; reflexivity. Qed.


(** ** More on the cache *)


(** X19.  A later sweep absorbs an earlier one: sweeping at [now] and
    then at a later time [now'] leaves the cache that the sweep at
    [now'] alone leaves, and that cache is within the one the sweep at
    [now] leaves. *)
Theorem later_sweep_absorbs_earlier now now' c :
  now ≤ now' →
  after (Reap_at now' (after (Reap_at now c))) = after (Reap_at now' c) ∧
  entries (after (Reap_at now' c)) ⊆ entries (after (Reap_at now c)).
Proof.
  intros Hle. unfold Reap_at. split.
  - apply Cache_eq, map_eq. intros k. rewrite !Reap_lookup.
    destruct (entries c !! k) as [e|]; [|done].
    destruct (stale now e) eqn:Hs; [|done].
    by rewrite (stale_mono _ _ _ Hle Hs).
  - apply map_subseteq_spec. intros k e. rewrite !Reap_lookup.
    destruct (entries c !! k) as [e'|]; [|done].
    destruct (stale now' e') eqn:Hs'; [done|]. intros [= <-].
    destruct (stale now e') eqn:Hs; [|done].
    by rewrite (stale_mono _ _ _ Hle Hs) in Hs'.
Qed.

(** X20.  The upper bound of expiry is reached: for every slack [eps]
    of a nanosecond or more there is a run in which an entry added at
    time [T] is still returned by [Get] at time
    [T + ttl + sweepInterval + eps - 1].  The entry is added as the
    cache is made; the first sweep finds it at age [ttl], which is not
    more than [ttl], and the second sweep is due only [sweepInterval]
    later and may be [eps - 1] late. *)
Theorem expiry_upper_bound_is_reached eps t0 k p :
  1 ≤ eps →
  ∃ l w',
    run eps (CallAdd k p :: l) (NewCache t0) = Some w' ∧
    existsb (adds k) l = false ∧
    wnow w' = t0 + ttl + sweepInterval + eps - 1 ∧
    returned (Get k (wcache w')) = (p, no_error).
Proof.
  intros Heps. pose proof ttl_pos. pose proof sweepInterval_pos.
  set (c1 := after (Add t0 k p {| entries := ∅ |})).
  set (w2 := {| wnow := t0 + ttl; wcache := c1;
                wreapers := [ReapLoop_sleep t0] |}).
  set (w3 := {| wnow := t0 + ttl; wcache := after (Reap_at (t0 + ttl) c1);
                wreapers := [ReapLoop_sleep (t0 + ttl)] |}).
  set (w4 := {| wnow := t0 + ttl + (sweepInterval + eps - 1);
                wcache := after (Reap_at (t0 + ttl) c1);
                wreapers := [ReapLoop_sleep (t0 + ttl)] |}).
  exists [Pass ttl; Wake 0; Pass (sweepInterval + eps - 1)], w4.
  assert (Hin : entries (wcache w4) !! k = Some {| createdAt := t0; data := p |}).
  { unfold w4, Reap_at. cbn [wcache]. rewrite Reap_lookup. unfold c1.
    rewrite Add_lookup.
    assert (Hs : stale (t0 + ttl) {| createdAt := t0; data := p |} = false)
      by (apply stale_false; cbn; lia).
    by rewrite Hs. }
  split_and!; [|done|cbn; lia|by rewrite (Get_hit _ _ _ Hin)].
  cbn [run step NewCache wnow wcache wreapers].
  fold c1.
  assert (Hp1 : may_pass eps ttl
            {| wnow := t0; wcache := c1; wreapers := [ReapLoop_sleep t0] |} = true).
  { apply may_pass_spec. split; [lia|].
    intros r ->%list_elem_of_singleton. unfold ReapLoop_sleep. cbn.
    change sweepInterval with ttl. lia. }
  rewrite Hp1. cbn [run step wnow wcache wreapers lookup list_lookup].
  assert (Hdue : (ReapLoop_sleep t0 <=? t0 + ttl) = true).
  { apply Z.leb_le. unfold ReapLoop_sleep. change sweepInterval with ttl. lia. }
  rewrite Hdue. cbn [run step wnow wcache wreapers ReapLoop_turn fst snd
                     insert list_insert].
  assert (Hp2 : may_pass eps (sweepInterval + eps - 1) w3 = true).
  { apply may_pass_spec. split; [lia|].
    intros r ->%list_elem_of_singleton. unfold ReapLoop_sleep. cbn. lia. }
  fold w3. rewrite Hp2. done.
Qed.

(** ** Properties of the program *)

(** *** The state and the printing functions *)

Lemma with_pCache_id s : with_pCache (pCache s) s = s.
Proof. by destruct s. Qed.

Lemma with_pDex_id s : with_pDex (pDex s) s = s.
Proof. by destruct s. Qed.

Lemma with_pCache_twice c c' s : with_pCache c (with_pCache c' s) = with_pCache c s.
Proof. done. Qed.

Lemma same_outside_cache_with s s' :
  same_outside_cache s s' ↔ s' = with_pCache (pCache s') s.
Proof.
  unfold same_outside_cache. split.
  - intros (Hd & Ha & Ho). destruct s, s'. cbn in *. by subst.
  - intros ->. done.
Qed.

Lemma same_outside_cache_refl s : same_outside_cache s s.
Proof. done. Qed.

Lemma same_outside_cache_trans s1 s2 s3 :
  same_outside_cache s1 s2 → same_outside_cache s2 s3 → same_outside_cache s1 s3.
Proof. unfold same_outside_cache. intros (-> & -> & ->) (-> & -> & ->). done. Qed.

(** A loop that prints a line for every element of a list. *)
Lemma foldl_print {A} (f : A → string) (l : list A) s :
  foldl (λ s a, print (f a) s) s l =
  {| pCache := pCache s; pDex := pDex s; api := api s;
     stdout := stdout s ++ (f <$> l) |}.
Proof.
  revert s. induction l as [|a l IH]; intros s; cbn [foldl fmap list_fmap].
  - rewrite app_nil_r. by destruct s.
  - rewrite IH. cbn. by rewrite <- app_assoc.
Qed.

(** *** The pokedex *)

Lemma pokedex_Get_hit k p entry :
  pokedex.entries p !! k = Some entry →
  pokedex.Get k p = ((pokedex.data entry, no_error), p).
Proof. intros H. unfold pokedex.Get. by rewrite H. Qed.

Lemma pokedex_Get_miss k p :
  pokedex.entries p !! k = None →
  pokedex.Get k p = (([], errors_New "key not found"), p).
Proof. intros H. unfold pokedex.Get. by rewrite H. Qed.

Lemma pokedex_Get_pokedex k p : (pokedex.Get k p).2 = p.
Proof. unfold pokedex.Get. by destruct (pokedex.entries p !! k). Qed.

(** X1.  The pokedex gives back what was added: after [Add(k, data)],
    [Get(k)] returns [data] and no error, [Get] on any other key
    returns what it returned before, and [Get] leaves the pokedex as it
    is. *)
Theorem pokedex_Add_Get now k k' data p :
  (pokedex.Get k' (pokedex.Add now k data p).2).1 =
    (if decide (k = k') then (data, no_error) else (pokedex.Get k' p).1) ∧
  (pokedex.Get k' p).2 = p.
Proof.
  split; [|apply pokedex_Get_pokedex].
  unfold pokedex.Get, pokedex.Add. cbn.
  destruct (decide (k = k')) as [->|Hne].
  - rewrite lookup_insert_eq. done.
  - rewrite lookup_insert_ne by done.
    by destruct (pokedex.entries p !! k').
Qed.

(** *** Catching *)

Lemma int_mul_in_range a b :
  - 2 ^ 63 ≤ a * b < 2 ^ 63 → int_mul a b = a * b.
Proof.
  intros H. unfold int_mul, wrap_int.
  rewrite Z.mod_small; lia.
Qed.

Section catching.

Context (json_Pokemon : bytes → Pokemon.t + string).

Lemma processCatch_caught e data pokemon s :
  json_Pokemon data = inl pokemon →
  (400 <? int_mul (dice_roll e) (Pokemon.BaseExperience pokemon)) = false →
  processCatch json_Pokemon e data s =
    (no_error,
     with_pDex (pokedex.Add (clock_pDex e) (Pokemon.Name pokemon) data (pDex s)).2
       (print (Println ["Gotcha! You caught a"; Pokemon.Name pokemon])
          (print ("Throwing a Pokeball at " +:+ Pokemon.Name pokemon
                  +:+ "..." +:+ newline) s))).
Proof. intros Hj Hd. unfold processCatch. by rewrite Hj, Hd. Qed.

Lemma processCatch_escaped e data pokemon s :
  json_Pokemon data = inl pokemon →
  (400 <? int_mul (dice_roll e) (Pokemon.BaseExperience pokemon)) = true →
  processCatch json_Pokemon e data s =
    (no_error,
     print ("Dice Roll : " +:+ format_d (dice_roll e) +:+ " * "
            +:+ format_d (Pokemon.BaseExperience pokemon) +:+ " > 400" +:+ newline)
       (print (Println ["Oh no! The"; Pokemon.Name pokemon; "escaped!"])
          (print ("Throwing a Pokeball at " +:+ Pokemon.Name pokemon
                  +:+ "..." +:+ newline) s))).
Proof. intros Hj Hd. unfold processCatch. by rewrite Hj, Hd. Qed.

(** X2.  The rule of [processCatch]: when the product of the dice and
    the base experience is in the range of [int], the pokemon is caught
    exactly when that product is at most 400.  A caught pokemon is added
    to the pokedex under the name in its payload, with the payload as it
    came; an escaped one leaves the pokedex as it is.  Either way the
    function returns no error and touches neither the cache nor the
    page addresses. *)
Theorem catch_rule e data pokemon s :
  json_Pokemon data = inl pokemon →
  - 2 ^ 63 ≤ dice_roll e * Pokemon.BaseExperience pokemon < 2 ^ 63 →
  let r := processCatch json_Pokemon e data s in
  r.1 = no_error ∧
  pCache r.2 = pCache s ∧
  api r.2 = api s ∧
  pDex r.2 =
    if decide (dice_roll e * Pokemon.BaseExperience pokemon ≤ 400)
    then (pokedex.Add (clock_pDex e) (Pokemon.Name pokemon) data (pDex s)).2
    else pDex s.
Proof.
  intros Hj Hr r. unfold r.
  destruct (400 <? int_mul (dice_roll e) (Pokemon.BaseExperience pokemon)) eqn:Hd.
  - rewrite (processCatch_escaped _ _ _ _ Hj Hd).
    rewrite int_mul_in_range in Hd by done. apply Z.ltb_lt in Hd.
    rewrite decide_False by lia. done.
  - rewrite (processCatch_caught _ _ _ _ Hj Hd).
    rewrite int_mul_in_range in Hd by done. apply Z.ltb_ge in Hd.
    rewrite decide_True by lia. done.
Qed.

(** X3.  The chances of a catch: for a positive base experience [b],
    with nine times [b] in the range of [int], a pokemon that is not in
    the pokedex yet is in it after [processCatch] exactly when the dice,
    one of 0 to 9, is at most [400 / b].  So every dice catches up to
    base experience 44, and only the dice 0 catches above 400. *)
Theorem catch_chances e data pokemon s :
  json_Pokemon data = inl pokemon →
  pokedex.entries (pDex s) !! Pokemon.Name pokemon = None →
  0 ≤ dice_roll e < 10 →
  0 < Pokemon.BaseExperience pokemon →
  9 * Pokemon.BaseExperience pokemon < 2 ^ 63 →
  is_Some (pokedex.entries (pDex (processCatch json_Pokemon e data s).2)
             !! Pokemon.Name pokemon) ↔
  dice_roll e ≤ 400 / Pokemon.BaseExperience pokemon.
Proof.
  intros Hj Hnew Hdice Hpos Hmax.
  set (b := Pokemon.BaseExperience pokemon) in *.
  assert (Hrange : - 2 ^ 63 ≤ dice_roll e * b < 2 ^ 63) by nia.
  assert (Hdiv : dice_roll e * b ≤ 400 ↔ dice_roll e ≤ 400 / b).
  { split; intros H.
    - apply Z.div_le_lower_bound; lia.
    - pose proof (Z.mul_div_le 400 b Hpos). nia. }
  rewrite <- Hdiv.
  destruct (400 <? int_mul (dice_roll e) b) eqn:Hd.
  - rewrite (processCatch_escaped _ _ _ _ Hj Hd).
    rewrite int_mul_in_range in Hd by done. apply Z.ltb_lt in Hd.
    cbn. rewrite Hnew. split; [by intros [? ?] | lia].
  - rewrite (processCatch_caught _ _ _ _ Hj Hd).
    rewrite int_mul_in_range in Hd by done. apply Z.ltb_ge in Hd.
    cbn. rewrite lookup_insert_eq. split; [done | by eexists].
Qed.

End catching.

(** *** The commands and the cache *)

Lemma through_cache_hit e url process s entry :
  entries (pCache s) !! url = Some entry →
  through_cache e url process s = process (data entry) s.
Proof.
  intros H. unfold through_cache. rewrite (Get_hit _ _ _ H).
  by rewrite with_pCache_id.
Qed.

Lemma through_cache_miss e url process s :
  entries (pCache s) !! url = None →
  through_cache e url process s =
    match network e url with
    | GetFails message =>
        (errors_New message, print (Println ["Error fetching data:"; message]) s)
    | ReadFails message =>
        (errors_New message, print (Println ["Error reading response:"; message]) s)
    | Response contentType body =>
        if strings_Contains contentType "application/json"
        then process body
               (with_pCache (after (Add (clock_now e) url body (pCache s))) s)
        else (errors_New "response is not JSON",
              print (Println ["Response is not JSON:"; contentType]) s)
    end.
Proof.
  intros H. unfold through_cache. rewrite (Get_miss _ _ H), with_pCache_id.
  destruct (network e url) as [m|m|ct body]; [done..|].
  by destruct (strings_Contains ct "application/json").
Qed.

Lemma cache_blind_pCache f s : cache_blind f → pCache (f s).2 = pCache s.
Proof.
  intros Hf. specialize (Hf (pCache s) s). rewrite with_pCache_id in Hf.
  rewrite (surjective_pairing (f s)) in Hf at 1. injection Hf as Hf.
  by rewrite Hf.
Qed.

Lemma cache_blind_same f s s' :
  cache_blind f → same_outside_cache s s' →
  (f s).1 = (f s').1 ∧ same_outside_cache (f s).2 (f s').2.
Proof.
  intros Hf ->%same_outside_cache_with. rewrite Hf. done.
Qed.

Section cache_use.

Context (json_PokeLoc : bytes → PokeLoc.t + string).
Context (json_PokeLocal : bytes → PokeLocal.t + string).
Context (json_Pokemon : bytes → Pokemon.t + string).

Lemma processExplore_blind data : cache_blind (processExplore json_PokeLocal data).
Proof.
  intros c s. unfold processExplore.
  destruct (json_PokeLocal _) as [locs|m]; [|done].
  destruct (0 <? length (PokeLocal.PokemonEncounters locs))%nat;
    by rewrite !foldl_print.
Qed.

Lemma processResponse_blind data : cache_blind (processResponse json_PokeLoc data).
Proof.
  intros c s. unfold processResponse.
  destruct (json_PokeLoc _) as [locs|m]; [|done].
  by rewrite !foldl_print.
Qed.

Lemma processCatch_blind e data : cache_blind (processCatch json_Pokemon e data).
Proof.
  intros c s. unfold processCatch.
  destruct (json_Pokemon _) as [pokemon|m]; [|done].
  by destruct (400 <? _).
Qed.

Lemma request_process_blind e r data :
  cache_blind (request_process json_PokeLoc json_PokeLocal json_Pokemon e r data).
Proof.
  destruct r; cbn;
    auto using processExplore_blind, processResponse_blind, processCatch_blind.
Qed.

Lemma request_process_with_network net e r :
  request_process json_PokeLoc json_PokeLocal json_Pokemon (with_network net e) r =
  request_process json_PokeLoc json_PokeLocal json_Pokemon e r.
Proof. by destruct r. Qed.

(** A call that has an address goes through the cache with it. *)
Lemma invoke_url e r s url :
  request_url r s = Some url →
  invoke json_PokeLoc json_PokeLocal json_Pokemon e r s =
  through_cache e url
    (request_process json_PokeLoc json_PokeLocal json_Pokemon e r)
    (request_announce r s).
Proof.
  destruct r; cbn; intros H.
  - by injection H as <-.
  - by injection H as <-.
  - unfold commandMap. rewrite bool_decide_eq_true_2 by done. by rewrite H.
  - unfold commandMap. rewrite bool_decide_eq_false_2 by done.
    rewrite bool_decide_eq_true_2 by done. by rewrite H.
Qed.

Lemma invoke_no_url e r s :
  request_url r s = None →
  invoke json_PokeLoc json_PokeLocal json_Pokemon e r s =
  (no_error, print (Println ["No more results"]) s).
Proof.
  destruct r; cbn; intros H; [done..| |].
  - unfold commandMap. rewrite bool_decide_eq_true_2 by done. by rewrite H.
  - unfold commandMap. rewrite bool_decide_eq_false_2 by done.
    rewrite bool_decide_eq_true_2 by done. by rewrite H.
Qed.

Lemma request_announce_pCache r s : pCache (request_announce r s) = pCache s.
Proof. by destruct r. Qed.

Lemma request_announce_with_pCache r c s :
  request_announce r (with_pCache c s) = with_pCache c (request_announce r s).
Proof. by destruct r. Qed.

(** X4.  A call whose address is in the cache does not use the
    network: whatever the network would answer, the call hands the
    cached payload to its processing function, and that is all it
    does. *)
Theorem cached_call_needs_no_network e net r s url entry :
  request_url r s = Some url →
  entries (pCache s) !! url = Some entry →
  invoke json_PokeLoc json_PokeLocal json_Pokemon (with_network net e) r s =
    invoke json_PokeLoc json_PokeLocal json_Pokemon e r s ∧
  invoke json_PokeLoc json_PokeLocal json_Pokemon e r s =
    request_process json_PokeLoc json_PokeLocal json_Pokemon e r (data entry)
      (request_announce r s).
Proof.
  intros Hurl Hin.
  assert (Hin' : entries (pCache (request_announce r s)) !! url = Some entry)
    by (by rewrite request_announce_pCache).
  rewrite !(invoke_url _ _ _ _ Hurl), !(through_cache_hit _ _ _ _ _ Hin').
  by rewrite request_process_with_network.
Qed.


Lemma coherent_Add net now url contentType body c :
  net url = Response contentType body →
  strings_Contains contentType "application/json" = true →
  coherent net c → coherent net (after (Add now url body c)).
Proof.
  intros Hnet Hct Hc k entry. destruct (decide (url = k)) as [<-|Hne].
  - rewrite Add_lookup. intros [= <-]. eauto.
  - rewrite Add_lookup_ne by done. apply Hc.
Qed.

Lemma coherent_Reap net clock c :
  coherent net c → coherent net (after (Reap clock c)).
Proof. intros Hc k entry Hk. apply Reap_lookup_Some in Hk. by apply Hc. Qed.

Lemma coherent_empty net : coherent net {| entries := ∅ |}.
Proof. intros k entry Hk. cbn in Hk. by rewrite lookup_empty in Hk. Qed.

Lemma through_cache_coherent e url process s :
  (∀ data, cache_blind (process data)) →
  coherent (network e) (pCache s) →
  coherent (network e) (pCache (through_cache e url process s).2).
Proof.
  intros Hb Hc. destruct (entries (pCache s) !! url) as [entry|] eqn:Hk.
  - rewrite (through_cache_hit _ _ _ _ _ Hk). by rewrite cache_blind_pCache.
  - rewrite (through_cache_miss _ _ _ _ Hk).
    destruct (network e url) as [m|m|ct body] eqn:Hnet; [done..|].
    destruct (strings_Contains ct "application/json") eqn:Hct; [|done].
    rewrite cache_blind_pCache by done. cbn [pCache with_pCache].
    by eapply coherent_Add.
Qed.

Lemma through_cache_transparent e url process s s' :
  (∀ data, cache_blind (process data)) →
  coherent (network e) (pCache s) → coherent (network e) (pCache s') →
  same_outside_cache s s' →
  (through_cache e url process s).1 = (through_cache e url process s').1 ∧
  same_outside_cache (through_cache e url process s).2
    (through_cache e url process s').2.
Proof.
  intros Hb Hc Hc' Hs.
  assert (Hsame : ∀ c c' data,
            (process data (with_pCache c s)).1 = (process data (with_pCache c' s')).1 ∧
            same_outside_cache (process data (with_pCache c s)).2
              (process data (with_pCache c' s')).2).
  { intros c c' d. apply cache_blind_same; [done|].
    destruct Hs as (? & ? & ?). done. }
  assert (Hhit : ∀ t entry, coherent (network e) (pCache t) →
            entries (pCache t) !! url = Some entry →
            through_cache e url process t = process (data entry) (with_pCache (pCache t) t) ∧
            ∃ ct, network e url = Response ct (data entry) ∧
                  strings_Contains ct "application/json" = true).
  { intros t entry Ht Hk. rewrite with_pCache_id. split; [by apply through_cache_hit|].
    by apply Ht. }
  assert (Hmiss : ∀ t ct body, entries (pCache t) !! url = None →
            network e url = Response ct body →
            strings_Contains ct "application/json" = true →
            through_cache e url process t =
              process body (with_pCache (after (Add (clock_now e) url body (pCache t))) t)).
  { intros t ct body Hk Hnet Hct. by rewrite (through_cache_miss _ _ _ _ Hk), Hnet, Hct. }
  destruct (entries (pCache s) !! url) as [entry|] eqn:Hk;
    destruct (entries (pCache s') !! url) as [entry'|] eqn:Hk'.
  - destruct (Hhit s entry Hc Hk) as (-> & ct & Hnet & Hct).
    destruct (Hhit s' entry' Hc' Hk') as (-> & ct' & Hnet' & Hct').
    rewrite Hnet in Hnet'. injection Hnet' as _ <-.
    apply Hsame.
  - destruct (Hhit s entry Hc Hk) as (-> & ct & Hnet & Hct).
    rewrite (Hmiss s' ct (data entry) Hk' Hnet Hct). apply Hsame.
  - destruct (Hhit s' entry' Hc' Hk') as (-> & ct & Hnet & Hct).
    rewrite (Hmiss s ct (data entry') Hk Hnet Hct). apply Hsame.
  - rewrite (through_cache_miss _ _ _ _ Hk), (through_cache_miss _ _ _ _ Hk').
    destruct (network e url) as [m|m|ct body]; cbn [fst snd].
    + destruct Hs as (? & ? & Ho). unfold same_outside_cache. cbn. by rewrite Ho.
    + destruct Hs as (? & ? & Ho). unfold same_outside_cache. cbn. by rewrite Ho.
    + destruct (strings_Contains ct "application/json"); [apply Hsame|].
      destruct Hs as (? & ? & Ho). unfold same_outside_cache. cbn. by rewrite Ho.
Qed.

End cache_use.

Section cache_theorems.

Context (json_PokeLoc : bytes → PokeLoc.t + string).
Context (json_PokeLocal : bytes → PokeLocal.t + string).
Context (json_Pokemon : bytes → Pokemon.t + string).

Local Abbreviation invoke := (invoke json_PokeLoc json_PokeLocal json_Pokemon).
Local Abbreviation request_process :=
  (request_process json_PokeLoc json_PokeLocal json_Pokemon).
Local Abbreviation undecodable := (undecodable json_PokeLoc json_PokeLocal json_Pokemon).

Lemma invoke_hit e r s url entry :
  request_url r s = Some url →
  entries (pCache s) !! url = Some entry →
  invoke e r s = request_process e r (data entry) (request_announce r s).
Proof.
  intros Hurl Hin. rewrite (invoke_url _ _ _ _ _ _ _ Hurl).
  apply through_cache_hit. by rewrite request_announce_pCache.
Qed.

Lemma invoke_fetch e r s url contentType body :
  request_url r s = Some url →
  entries (pCache s) !! url = None →
  network e url = Response contentType body →
  strings_Contains contentType "application/json" = true →
  invoke e r s =
    request_process e r body
      (with_pCache (after (Add (clock_now e) url body (pCache s)))
         (request_announce r s)).
Proof.
  intros Hurl Hk Hnet Hct. rewrite (invoke_url _ _ _ _ _ _ _ Hurl).
  rewrite through_cache_miss by (by rewrite request_announce_pCache).
  by rewrite Hnet, Hct, request_announce_pCache.
Qed.

Lemma request_process_undecodable e r body message s :
  undecodable r body message →
  request_process e r body s =
    (errors_New message, print (Println ["Error unmarshalling JSON:"; message]) s).
Proof.
  destruct r; cbn; intros H.
  - unfold processExplore. by rewrite H.
  - unfold processCatch. by rewrite H.
  - unfold processResponse. by rewrite H.
  - unfold processResponse. by rewrite H.
Qed.

(** X5.  A fetch that fails caches nothing: when the address is not in
    the cache and the network gives an error of [http.Get], an error of
    reading the body, or a content type without "application/json", the
    call returns that error ("response is not JSON" in the last case)
    and leaves the cache, the pokedex and the page addresses as they
    were. *)
Theorem failed_fetch_caches_nothing e r s url :
  request_url r s = Some url →
  entries (pCache s) !! url = None →
  (∀ contentType body, network e url = Response contentType body →
     strings_Contains contentType "application/json" = false) →
  (invoke e r s).1 =
    match network e url with
    | GetFails message | ReadFails message => errors_New message
    | Response _ _ => errors_New "response is not JSON"
    end ∧
  pCache (invoke e r s).2 = pCache s ∧
  pDex (invoke e r s).2 = pDex s ∧
  api (invoke e r s).2 = api s.
Proof.
  intros Hurl Hk Hbad. rewrite (invoke_url _ _ _ _ _ _ _ Hurl).
  rewrite through_cache_miss by (by rewrite request_announce_pCache).
  destruct (network e url) as [m|m|ct body]; cbn [fst snd];
    [by destruct r.. |].
  rewrite (Hbad ct body eq_refl). by destruct r.
Qed.

(** X6.  A fetched body is cached before it is decoded: when the
    address is not in the cache and the network answers with a JSON
    content type, the body is in the cache after the call, under the
    address and with the time of the call, whatever the processing
    function makes of it. *)
Theorem fetched_body_is_cached e r s url contentType body :
  request_url r s = Some url →
  entries (pCache s) !! url = None →
  network e url = Response contentType body →
  strings_Contains contentType "application/json" = true →
  pCache (invoke e r s).2 = after (Add (clock_now e) url body (pCache s)) ∧
  entries (pCache (invoke e r s).2) !! url =
    Some {| createdAt := clock_now e; data := body |} ∧
  returned (Get url (pCache (invoke e r s).2)) = (body, no_error).
Proof.
  intros Hurl Hk Hnet Hct.
  assert (Hc : pCache (invoke e r s).2 = after (Add (clock_now e) url body (pCache s))).
  { rewrite (invoke_fetch _ _ _ _ _ _ Hurl Hk Hnet Hct).
    rewrite cache_blind_pCache by apply request_process_blind. done. }
  rewrite Hc. split_and!; [done | apply Add_lookup |].
  rewrite (Get_hit url _ {| createdAt := clock_now e; data := body |}); [done|].
  apply Add_lookup.
Qed.

(** X7.  A body that does not decode is cached all the same, and the
    error comes back from the cache: the call that fetched it returns
    the decoder's error, and so does every later call for the same
    address while the entry is in the cache, without asking the network
    again. *)
Theorem undecodable_body_is_cached e e' r s url contentType body message :
  request_url r s = Some url →
  entries (pCache s) !! url = None →
  network e url = Response contentType body →
  strings_Contains contentType "application/json" = true →
  undecodable r body message →
  (invoke e r s).1 = errors_New message ∧
  request_url r (invoke e r s).2 = Some url ∧
  (invoke e' r (invoke e r s).2).1 = errors_New message ∧
  pCache (invoke e' r (invoke e r s).2).2 =
    after (Add (clock_now e) url body (pCache s)).
Proof.
  intros Hurl Hk Hnet Hct Hbad.
  pose proof (invoke_fetch _ _ _ _ _ _ Hurl Hk Hnet Hct) as H1.
  rewrite (request_process_undecodable _ _ _ _ _ Hbad) in H1.
  assert (Hurl' : request_url r (invoke e r s).2 = Some url).
  { rewrite H1. by destruct r. }
  assert (Hin : entries (pCache (invoke e r s).2) !! url =
                Some {| createdAt := clock_now e; data := body |}).
  { rewrite H1. cbn. apply Add_lookup. }
  split_and!.
  - by rewrite H1.
  - exact Hurl'.
  - rewrite (invoke_hit e' _ _ _ _ Hurl' Hin).
    by rewrite (request_process_undecodable _ _ _ _ _ Hbad).
  - rewrite (invoke_hit e' _ _ _ _ Hurl' Hin).
    rewrite (request_process_undecodable _ _ _ _ _ Hbad).
    cbn [snd pCache print]. rewrite request_announce_pCache, H1. done.
Qed.

(** X8.  For five minutes a fetched address is served from the cache:
    after a call has fetched a body at time [T], every call for the
    same address made before [T + ttl] is answered with that body and
    without the network, whatever sweeps of the reapers and calls for
    other addresses happened in between. *)
Theorem fetched_address_is_served_until_ttl
    e r s url contentType body eps w l w' e' r' s' :
  request_url r s = Some url →
  entries (pCache s) !! url = None →
  network e url = Response contentType body →
  strings_Contains contentType "application/json" = true →
  wcache w = pCache (invoke e r s).2 →
  wnow w = clock_now e →
  run eps l w = Some w' →
  existsb (adds url) l = false →
  wnow w' < clock_now e + ttl →
  pCache s' = wcache w' →
  request_url r' s' = Some url →
  invoke e' r' s' = request_process e' r' body (request_announce r' s').
Proof.
  intros Hurl Hk Hnet Hct Hw Hnow Hrun Hl Hlt Hs' Hurl'.
  assert (Hin : entries (wcache w) !! url =
                Some {| createdAt := clock_now e; data := body |}).
  { rewrite Hw, (invoke_fetch _ _ _ _ _ _ Hurl Hk Hnet Hct).
    rewrite cache_blind_pCache by apply request_process_blind. apply Add_lookup. }
  assert (Hin' : entries (pCache s') !! url =
                 Some {| createdAt := clock_now e; data := body |}).
  { rewrite Hs'. eapply run_keeps_fresh; [done.. |]. cbn. lia. }
  by rewrite (invoke_hit _ _ _ _ _ Hurl' Hin').
Qed.

Lemma invoke_coherent e r s :
  coherent (network e) (pCache s) →
  coherent (network e) (pCache (invoke e r s).2).
Proof.
  intros Hc. destruct (request_url r s) as [url|] eqn:Hu.
  - rewrite (invoke_url _ _ _ _ _ _ _ Hu).
    apply through_cache_coherent; [apply request_process_blind|].
    by rewrite request_announce_pCache.
  - by rewrite (invoke_no_url _ _ _ _ _ _ Hu).
Qed.

Lemma invoke_transparent e r s s' :
  coherent (network e) (pCache s) →
  coherent (network e) (pCache s') →
  same_outside_cache s s' →
  (invoke e r s).1 = (invoke e r s').1 ∧
  same_outside_cache (invoke e r s).2 (invoke e r s').2.
Proof.
  intros Hc Hc' Hs.
  assert (Hapi : api s = api s') by (by destruct Hs as (_ & ? & _)).
  assert (Hurl : request_url r s' = request_url r s).
  { destruct r; cbn; by rewrite ?Hapi. }
  assert (Ha : same_outside_cache (request_announce r s) (request_announce r s')).
  { destruct Hs as (? & ? & Ho). destruct r; unfold same_outside_cache; cbn;
      by rewrite ?Ho. }
  destruct (request_url r s) as [url|] eqn:Hu.
  - rewrite (invoke_url _ _ _ _ _ _ _ Hu), (invoke_url _ _ _ _ _ _ _ Hurl).
    apply through_cache_transparent;
      [apply request_process_blind | by rewrite request_announce_pCache.. | done].
  - rewrite (invoke_no_url _ _ _ _ _ _ Hu), (invoke_no_url _ _ _ _ _ _ Hurl).
    cbn [fst snd]. split; [done|].
    destruct Hs as (? & ? & Ho). unfold same_outside_cache. cbn. by rewrite Ho.
Qed.

(** X9.  The cache is invisible while the network does not change its
    answers: on two states that differ in their caches only, both
    caches holding nothing but what the network answers, a call returns
    the same error, prints the same, and leaves the same pokedex and
    page addresses; and the cache it leaves again holds nothing but
    what the network answers. *)
Theorem cache_is_transparent e r s s' :
  coherent (network e) (pCache s) →
  coherent (network e) (pCache s') →
  same_outside_cache s s' →
  (invoke e r s).1 = (invoke e r s').1 ∧
  same_outside_cache (invoke e r s).2 (invoke e r s').2 ∧
  coherent (network e) (pCache (invoke e r s).2).
Proof.
  intros Hc Hc' Hs.
  destruct (invoke_transparent e r s s' Hc Hc' Hs) as [He Hsame].
  split_and!; [done.. |]. by apply invoke_coherent.
Qed.

End cache_theorems.

(** *** The loop of [main] *)

Lemma prints_only_print text s :
  ∃ lines, print text s =
    {| pCache := pCache s; pDex := pDex s; api := api s;
       stdout := stdout s ++ lines |}.
Proof. by exists [text]. Qed.

(** A property that printing keeps is kept by a function that only
    prints. *)
Lemma prints_only_keeps (P : Program → Prop) f s :
  (∀ text s, P s → P (print text s)) →
  prints_only f → P s → P (f s).2.
Proof.
  intros Hprint Hf Hs. destruct (Hf s) as [lines ->].
  assert (H : ∀ lines s, P s →
            P {| pCache := pCache s; pDex := pDex s; api := api s;
                 stdout := stdout s ++ lines |}).
  { intros lines'. induction lines' as [|line lines' IH]; intros s' Hs'.
    - rewrite app_nil_r. by destruct s'.
    - specialize (IH (print line s') (Hprint _ _ Hs')). cbn in IH.
      by rewrite <- app_assoc in IH. }
  by apply H.
Qed.

Section loop.

Context (json_PokeLoc : bytes → PokeLoc.t + string).
Context (json_PokeLocal : bytes → PokeLocal.t + string).
Context (json_Pokemon : bytes → Pokemon.t + string).
Context (strings_TrimSpace : string → string).
Context (strings_Fields : string → list string).

Local Abbreviation invoke := (invoke json_PokeLoc json_PokeLocal json_Pokemon).
Local Abbreviation commands := (commands json_PokeLoc json_PokeLocal json_Pokemon).
Local Abbreviation main_turn :=
  (main_turn json_PokeLoc json_PokeLocal json_Pokemon
     strings_TrimSpace strings_Fields).
Local Abbreviation main :=
  (main json_PokeLoc json_PokeLocal json_Pokemon strings_TrimSpace strings_Fields).

Lemma commandInspect_hit param params s entry pokemon :
  pokedex.entries (pDex s) !! param = Some entry →
  json_Pokemon (pokedex.data entry) = inl pokemon →
  commandInspect json_Pokemon (param :: params) s =
    (no_error,
     {| pCache := pCache s; pDex := pDex s; api := api s;
        stdout :=
          stdout s ++
          ["Name: " +:+ Pokemon.Name pokemon +:+ newline;
           "Height: " +:+ format_d (Pokemon.Height pokemon) +:+ newline;
           "Weight: " +:+ format_d (Pokemon.Weight pokemon) +:+ newline;
           Println ["Stats:"]] ++
          ((λ stat, "  -" +:+ Name (Pokemon.Stat stat) +:+ ": "
                    +:+ format_d (Pokemon.BaseStat stat) +:+ newline)
             <$> Pokemon.Stats pokemon) ++
          [Println ["Types:"]] ++
          ((λ t, Println ["  - "; Name (Pokemon.Type_ t)]) <$> Pokemon.Types pokemon) |}).
Proof.
  intros Hk Hj. unfold commandInspect.
  rewrite (pokedex_Get_hit _ _ _ Hk), Hj, with_pDex_id, !foldl_print.
  cbn. f_equal. f_equal. rewrite <- !app_assoc. done.
Qed.

Lemma commandInspect_undecodable param params s entry message :
  pokedex.entries (pDex s) !! param = Some entry →
  json_Pokemon (pokedex.data entry) = inr message →
  commandInspect json_Pokemon (param :: params) s =
    (errors_New message, print (Println ["Error unmarshalling JSON:"; message]) s).
Proof.
  intros Hk Hj. unfold commandInspect.
  by rewrite (pokedex_Get_hit _ _ _ Hk), Hj, with_pDex_id.
Qed.

Lemma commandInspect_miss param params s :
  pokedex.entries (pDex s) !! param = None →
  commandInspect json_Pokemon (param :: params) s =
    (errors_New "key not found",
     print (Println ["You have not caught that pokemon yet (or there was an error):";
                     param]) s).
Proof.
  intros Hk. unfold commandInspect.
  by rewrite (pokedex_Get_miss _ _ Hk), with_pDex_id.
Qed.

Lemma commandInspect_prints_only params :
  prints_only (commandInspect json_Pokemon params).
Proof.
  intros s. destruct params as [|param params]; [apply prints_only_print|].
  destruct (pokedex.entries (pDex s) !! param) as [entry|] eqn:Hk.
  - destruct (json_Pokemon (pokedex.data entry)) as [pokemon|m] eqn:Hj.
    + rewrite (commandInspect_hit _ _ _ _ _ Hk Hj). cbn. eauto.
    + rewrite (commandInspect_undecodable _ _ _ _ _ Hk Hj). apply prints_only_print.
  - rewrite (commandInspect_miss _ _ _ Hk). apply prints_only_print.
Qed.

Lemma commandInspect_blind params :
  cache_blind (commandInspect json_Pokemon params).
Proof.
  intros c s. destruct params as [|param params]; [done|].
  destruct (pokedex.entries (pDex s) !! param) as [entry|] eqn:Hk.
  - destruct (json_Pokemon (pokedex.data entry)) as [pokemon|m] eqn:Hj.
    + by rewrite (commandInspect_hit param params (with_pCache c s) _ _ Hk Hj),
        (commandInspect_hit param params s _ _ Hk Hj).
    + by rewrite (commandInspect_undecodable param params (with_pCache c s) _ _ Hk Hj),
        (commandInspect_undecodable param params s _ _ Hk Hj).
  - by rewrite (commandInspect_miss param params (with_pCache c s) Hk),
      (commandInspect_miss param params s Hk).
Qed.

Lemma commandHelp_prints_only d : prints_only (commandHelp d).
Proof.
  intros s. unfold commandHelp. rewrite foldl_print. cbn.
  rewrite <- !app_assoc. eauto.
Qed.

Lemma commandHelp_blind d : cache_blind (commandHelp d).
Proof. intros c s. unfold commandHelp. by rewrite !foldl_print. Qed.

Lemma commandPokedex_prints_only e params : prints_only (commandPokedex e params).
Proof.
  intros s. unfold commandPokedex. rewrite foldl_print. cbn.
  rewrite <- !app_assoc. eauto.
Qed.

Lemma commandPokedex_blind e params : cache_blind (commandPokedex e params).
Proof. intros c s. unfold commandPokedex. by rewrite !foldl_print. Qed.

(** The callbacks of the variable [commands]: one ends the process, four
    are calls through the cache when they have the parameter they need,
    and the others only print and do not look at the cache. *)
Lemma callback_cases cmd ce e params :
  commands !! cmd = Some ce →
  (∀ s, callback ce e params s = Exits 0 s) ∨
  ∃ f, (∀ s, callback ce e params s = returning f s) ∧
       ((∃ r, f = invoke e r) ∨ (prints_only f ∧ cache_blind f)).
Proof.
  intros H. apply elem_of_list_to_map_2 in H.
  repeat (apply elem_of_cons in H as [H|H];
          [injection H as _ ->; cbn [callback] | ]).
  - right. eexists. split; [done|]. right.
    auto using commandHelp_prints_only, commandHelp_blind.
  - by left.
  - right. eexists. split; [done|]. left. by exists map_next.
  - right. eexists. split; [done|]. left. by exists map_prev.
  - right. eexists. split; [done|]. destruct params as [|param params].
    + right. split; [intros ?; apply prints_only_print | done].
    + left. by exists (explore param params).
  - right. eexists. split; [done|]. destruct params as [|param params].
    + right. split; [intros ?; apply prints_only_print | done].
    + left. by exists (catch param params).
  - right. eexists. split; [done|]. right.
    auto using commandInspect_prints_only, commandInspect_blind.
  - right. eexists. split; [done|]. right.
    auto using commandPokedex_prints_only, commandPokedex_blind.
  - by apply elem_of_nil in H.
Qed.

(** A property of the state that printing and the calls through the
    cache keep is kept by a turn of the loop of [main]. *)
Lemma main_turn_keeps (P : Program → Prop) e r s :
  (∀ text s, P s → P (print text s)) →
  (∀ r s, P s → P (invoke e r s).2) →
  P s → P (final (main_turn e r s)).
Proof.
  intros Hprint Hinvoke Hs. unfold main_turn.
  destruct r as [input|message]; [|cbn; auto].
  destruct (strings_Fields _) as [|cmd params]; [cbn; auto|].
  destruct (commands !! cmd) as [ce|] eqn:Hce; [|cbn; auto].
  destruct (callback_cases cmd ce e params Hce) as [->|(f & -> & Hf)];
    [cbn; auto|].
  assert (Hfs : P (f (print "Pokedex> " s)).2).
  { destruct Hf as [[r ->]|[Hf _]]; [auto|].
    apply prints_only_keeps; auto. }
  unfold returning. destruct (f (print "Pokedex> " s)).1; cbn; auto.
Qed.

Lemma main_keeps (P : Program → Prop) events s :
  (∀ text s, P s → P (print text s)) →
  (∀ e r0, Turn e r0 ∈ events → ∀ r s, P s → P (invoke e r s).2) →
  (∀ clock s, P s → P (with_pCache (after (Reap clock (pCache s))) s)) →
  P s → P (final (main events s)).
Proof.
  intros Hprint Hinvoke Hsweep. revert s.
  induction events as [|[e r|clock] events IH]; intros s Hs; [done| |].
  - cbn.
    assert (Ht : P (final (main_turn e r s))).
    { apply main_turn_keeps; [done| |done]. eapply Hinvoke. left. }
    destruct (main_turn e r s) as [t|t]; [|done].
    apply IH; [|done]. intros e' r' Hin. apply (Hinvoke e' r'). by right.
  - cbn. apply IH; [|by apply Hsweep].
    intros e' r' Hin. apply (Hinvoke e' r'). by right.
Qed.

(** A property of the state that does not depend on the cache or the
    output is kept by a call through the cache when the function that
    gets the payload keeps it. *)
Lemma invoke_keeps (P : Program → Prop) e r s :
  (∀ text s, P s → P (print text s)) →
  (∀ c s, P s → P (with_pCache c s)) →
  (∀ data s, P s →
     P (request_process json_PokeLoc json_PokeLocal json_Pokemon e r data s).2) →
  P s → P (invoke e r s).2.
Proof.
  intros Hprint Hcache Hprocess Hs.
  destruct (request_url r s) as [url|] eqn:Hurl.
  - rewrite (invoke_url _ _ _ _ _ _ _ Hurl).
    assert (Ha : P (request_announce r s)) by (destruct r; cbn; auto).
    revert Ha. generalize (request_announce r s). intros t Ht.
    destruct (entries (pCache t) !! url) as [entry|] eqn:Hk.
    + rewrite (through_cache_hit _ _ _ _ _ Hk). auto.
    + rewrite (through_cache_miss _ _ _ _ Hk).
      destruct (network e url) as [m|m|ct body]; cbn; auto.
      destruct (strings_Contains ct "application/json"); cbn; auto.
  - rewrite (invoke_no_url _ _ _ _ _ _ Hurl). cbn. auto.
Qed.

Lemma processExplore_pDex data s :
  pDex (processExplore json_PokeLocal data s).2 = pDex s.
Proof.
  unfold processExplore. destruct (json_PokeLocal data) as [locs|m]; [|done].
  rewrite foldl_print. by destruct (0 <? _)%nat.
Qed.

Lemma processResponse_pDex data s :
  pDex (processResponse json_PokeLoc data s).2 = pDex s.
Proof.
  unfold processResponse. destruct (json_PokeLoc data) as [locs|m]; [|done].
  by rewrite foldl_print.
Qed.

Lemma processCatch_pDex e data s :
  pDex (processCatch json_Pokemon e data s).2 = pDex s ∨
  ∃ pokemon,
    json_Pokemon data = inl pokemon ∧
    pDex (processCatch json_Pokemon e data s).2 =
      (pokedex.Add (clock_pDex e) (Pokemon.Name pokemon) data (pDex s)).2.
Proof.
  destruct (json_Pokemon data) as [pokemon|m] eqn:Hj.
  - destruct (400 <? int_mul (dice_roll e) (Pokemon.BaseExperience pokemon)) eqn:Hd.
    + left. by rewrite (processCatch_escaped _ _ _ _ _ Hj Hd).
    + right. exists pokemon. by rewrite (processCatch_caught _ _ _ _ _ Hj Hd).
  - left. unfold processCatch. by rewrite Hj.
Qed.

(** A property of the pokedex that adding a decoded payload under its
    name keeps is kept by the loop of [main]. *)
Lemma main_keeps_pokedex (Q : pokedex.pokedex → Prop) events s :
  (∀ now data pokemon p,
     json_Pokemon data = inl pokemon → Q p →
     Q (pokedex.Add now (Pokemon.Name pokemon) data p).2) →
  Q (pDex s) → Q (pDex (final (main events s))).
Proof.
  intros HQ Hs.
  apply (main_keeps (λ s, Q (pDex s))); [done| |done|done].
  intros e _ _ r t Ht. apply (invoke_keeps (λ s, Q (pDex s))); [done..| |done].
  intros data u Hu. destruct r; cbn.
  - by rewrite processExplore_pDex.
  - destruct (processCatch_pDex e data u) as [->|(pokemon & Hj & ->)]; auto.
  - by rewrite processResponse_pDex.
  - by rewrite processResponse_pDex.
Qed.

(** X10.  The program never takes a pokemon out of the pokedex: a name
    that is in the pokedex is in it after any run of the loop of [main],
    whatever was typed, fetched and swept. *)
Theorem pokedex_only_grows events s k :
  is_Some (pokedex.entries (pDex s) !! k) →
  is_Some (pokedex.entries (pDex (final (main events s))) !! k).
Proof.
  apply (main_keeps_pokedex (λ p, is_Some (pokedex.entries p !! k))).
  intros now data pokemon p _ Hp. cbn.
  destruct (decide (Pokemon.Name pokemon = k)) as [->|Hne].
  - rewrite lookup_insert_eq. by eexists.
  - by rewrite lookup_insert_ne.
Qed.

Lemma main_decodes events now :
  decodes json_Pokemon (pDex (final (main events (init now)))).
Proof.
  apply (main_keeps_pokedex (decodes json_Pokemon)).
  - intros now' data pokemon p Hj Hp k entry. cbn.
    destruct (decide (Pokemon.Name pokemon = k)) as [<-|Hne].
    + rewrite lookup_insert_eq. intros [= <-]. eauto.
    + rewrite lookup_insert_ne by done. apply Hp.
  - intros k entry Hk. cbn in Hk. by rewrite lookup_empty in Hk.
Qed.

(** X11.  In every state the program reaches from [init], a pokedex
    entry holds a payload that decodes to a pokemon and is stored under
    that pokemon's name.  So [commandInspect] never fails on a payload:
    for a key of the pokedex it returns no error, and the key is the
    name in the payload, whatever the user typed to catch it; for any
    other key it returns "key not found". *)
Theorem inspect_after_any_run now events param params :
  let s := final (main events (init now)) in
  match pokedex.entries (pDex s) !! param with
  | Some entry =>
      ∃ pokemon,
        json_Pokemon (pokedex.data entry) = inl pokemon ∧
        Pokemon.Name pokemon = param ∧
        (commandInspect json_Pokemon (param :: params) s).1 = no_error
  | None =>
      (commandInspect json_Pokemon (param :: params) s).1 =
        errors_New "key not found"
  end.
Proof.
  intros s. pose proof (main_decodes events now) as Hd. fold s in Hd.
  destruct (pokedex.entries (pDex s) !! param) as [entry|] eqn:Hk.
  - destruct (Hd param entry Hk) as (pokemon & Hj & Hn).
    exists pokemon. by rewrite (commandInspect_hit _ _ _ _ _ Hk Hj).
  - by rewrite (commandInspect_miss _ _ _ Hk).
Qed.

Lemma stable_network_cons net ev events :
  stable_network net (ev :: events) → stable_network net events.
Proof. intros H. by apply Forall_cons in H as [_ H]. Qed.

Lemma stable_network_turn net events e r :
  stable_network net events → Turn e r ∈ events → network e = net.
Proof.
  intros H Hin. unfold stable_network in H. rewrite Forall_forall in H.
  apply (H _ Hin).
Qed.

(** X12.  While the network does not change its answers, the cache
    holds nothing but what the network answers: after any run from
    [init], every entry of the cache holds the body that the network
    gives for the entry's key, under a JSON content type. *)
Theorem cache_holds_network_answers net now events :
  stable_network net events →
  coherent net (pCache (final (main events (init now)))).
Proof.
  intros Hnet. apply (main_keeps (λ s, coherent net (pCache s))).
  - done.
  - intros e r0 Hin r s Hs. rewrite <- (stable_network_turn _ _ _ _ Hnet Hin) in *.
    by apply invoke_coherent.
  - intros clock s Hs. by apply coherent_Reap.
  - apply coherent_empty.
Qed.

Lemma related_print net text s s' :
  related net s s' → related net (print text s) (print text s').
Proof.
  intros ((? & ? & Ho) & ? & ?). unfold related, same_outside_cache. cbn.
  by rewrite Ho.
Qed.

Lemma main_turn_related net e r s s' :
  network e = net → related net s s' →
  ended (main_turn e r s) = ended (main_turn e r s') ∧
  related net (final (main_turn e r s)) (final (main_turn e r s')).
Proof.
  intros <- Hs. unfold main_turn.
  pose proof (related_print _ "Pokedex> " _ _ Hs) as Hp.
  destruct r as [input|message]; [|split; [done | by apply related_print]].
  destruct (strings_Fields _) as [|cmd params]; [done|].
  destruct (commands !! cmd) as [ce|] eqn:Hce;
    [|split; [done | by apply related_print]].
  destruct (callback_cases cmd ce e params Hce) as [Hx|(f & Hf & Hkind)].
  { by rewrite !Hx. }
  rewrite !Hf. unfold returning.
  assert (Hr : (f (print "Pokedex> " s)).1 = (f (print "Pokedex> " s')).1 ∧
               related (network e) (f (print "Pokedex> " s)).2
                 (f (print "Pokedex> " s')).2).
  { destruct Hp as (Hsame & Hc & Hc'). destruct Hkind as [[req ->]|[_ Hblind]].
    - destruct (invoke_transparent json_PokeLoc json_PokeLocal json_Pokemon
                  e req _ _ Hc Hc' Hsame) as [He Ho].
      split; [done|]. split_and!; [done | by apply invoke_coherent..].
    - destruct (cache_blind_same f _ _ Hblind Hsame) as [He Ho].
      split; [done|]. split_and!; [done | by rewrite cache_blind_pCache..]. }
  destruct Hr as [<- Hr].
  destruct (f (print "Pokedex> " s)).1; cbn [ended final];
    (split; [done | by try apply related_print]).
Qed.

Lemma main_related net events s s' :
  stable_network net events → related net s s' →
  ended (main events s) = ended (main (without_sweeps events) s') ∧
  related net (final (main events s)) (final (main (without_sweeps events) s')).
Proof.
  revert s s'. induction events as [|[e r|clock] events IH]; intros s s' Hnet Hs.
  - done.
  - cbn -[main_turn].
    destruct (main_turn_related net e r s s') as [He Hr]; [|done|].
    { apply (stable_network_turn _ _ _ r Hnet). left. }
    destruct (main_turn e r s) as [t|t], (main_turn e r s') as [t'|t'];
      try done.
    apply IH; [by eapply stable_network_cons | done].
  - cbn. apply IH; [by eapply stable_network_cons|].
    destruct Hs as (Hsame & Hc & Hc'). split_and!; [done| |done].
    by apply coherent_Reap.
Qed.

(** X13.  The sweeps of the reaper are invisible while the network does
    not change its answers: a run from [init] prints the same, ends or
    goes on the same, and leaves the same pokedex and page addresses as
    the same run without any of its sweeps. *)
Theorem sweeps_are_invisible net now events :
  stable_network net events →
  ended (main events (init now)) =
    ended (main (without_sweeps events) (init now)) ∧
  same_outside_cache
    (final (main events (init now)))
    (final (main (without_sweeps events) (init now))).
Proof.
  intros Hnet.
  destruct (main_related net events (init now) (init now) Hnet) as [He (Hs & _)].
  { split_and!; [done | apply coherent_empty..]. }
  done.
Qed.

(** X14.  A pokemon is inspected by the name in its payload, not by
    what was typed to catch it: after [catch param] has fetched a
    payload that decodes to a pokemon and the dice has let it be caught,
    [inspect] with the pokemon's name returns no error, and [inspect]
    with [param] returns "key not found" when [param] is not that name
    and was not in the pokedex before. *)
Theorem caught_is_inspected_by_name
    e param params params' s contentType body pokemon :
  entries (pCache s) !! ("https://pokeapi.co/api/v2/pokemon/" +:+ param) = None →
  network e ("https://pokeapi.co/api/v2/pokemon/" +:+ param) =
    Response contentType body →
  strings_Contains contentType "application/json" = true →
  json_Pokemon body = inl pokemon →
  - 2 ^ 63 ≤ dice_roll e * Pokemon.BaseExperience pokemon ≤ 400 →
  let s1 := (commandCatch json_Pokemon e (param :: params) s).2 in
  (commandInspect json_Pokemon (Pokemon.Name pokemon :: params') s1).1 = no_error ∧
  (param ≠ Pokemon.Name pokemon →
   pokedex.entries (pDex s) !! param = None →
   (commandInspect json_Pokemon (param :: params') s1).1 =
     errors_New "key not found").
Proof.
  intros Hk Hnet Hct Hj Hdice s1.
  assert (Hd : (400 <? int_mul (dice_roll e) (Pokemon.BaseExperience pokemon)) = false).
  { rewrite int_mul_in_range by lia. apply Z.ltb_ge. lia. }
  assert (Hs1 : pDex s1 =
    (pokedex.Add (clock_pDex e) (Pokemon.Name pokemon) body (pDex s)).2).
  { unfold s1, commandCatch. rewrite (through_cache_miss _ _ _ _ Hk), Hnet, Hct.
    by rewrite (processCatch_caught _ _ _ _ _ Hj Hd). }
  split.
  - rewrite (commandInspect_hit _ _ s1 {| pokedex.createdAt := clock_pDex e;
                                          pokedex.data := body |} pokemon);
      [done| |done].
    rewrite Hs1. cbn. apply lookup_insert_eq.
  - intros Hne Hnew. rewrite commandInspect_miss; [done|].
    rewrite Hs1. cbn. by rewrite lookup_insert_ne.
Qed.

Lemma request_process_api e r data s :
  api (request_process json_PokeLoc json_PokeLocal json_Pokemon e r data s).2 = api s ∨
  (r = map_next ∨ r = map_prev) ∧
  (request_process json_PokeLoc json_PokeLocal json_Pokemon e r data s).1 = no_error ∧
  ∃ locs, json_PokeLoc data = inl locs ∧
    api (request_process json_PokeLoc json_PokeLocal json_Pokemon e r data s).2 =
      {| NextURL := PokeLoc.Next locs; PrevURL := PokeLoc.Previous locs |}.
Proof.
  destruct r; cbn.
  - left. unfold processExplore. destruct (json_PokeLocal data); [|done].
    rewrite foldl_print. by destruct (0 <? _)%nat.
  - left. unfold processCatch. destruct (json_Pokemon data); [|done].
    by destruct (400 <? _).
  - unfold processResponse. destruct (json_PokeLoc data) as [locs|m]; [|by left].
    right. split_and!; [by left | done | by exists locs].
  - unfold processResponse. destruct (json_PokeLoc data) as [locs|m]; [|by left].
    right. split_and!; [by right | done | by exists locs].
Qed.


(** X16.  The addresses of [explore] and of [catch] are never the same,
    and neither is ever the first page address of [map]: the two
    commands do not read each other's cache entries. *)
Theorem explore_and_catch_share_no_address now param params param' params' s s' :
  request_url (explore param params) s ≠ request_url (catch param' params') s' ∧
  request_url (explore param params) s ≠ request_url map_next (init now) ∧
  request_url (catch param' params') s' ≠ request_url map_next (init now).
Proof.
  cbn. unfold String.app. cbn [String.append].
  split_and!; intros [= H]; by destruct param, param'.
Qed.

Lemma callback_named cmd ce e params :
  commands !! cmd = Some ce →
  (∀ s, callback ce e params s = Exits 0 s) ∨
  ∃ f, (∀ s, callback ce e params s = returning f s) ∧
       (cmd = "map" ∧ f = invoke e map_next ∨
        cmd = "mapb" ∧ f = invoke e map_prev ∨
        cmd = "explore" ∧ (∃ param params', f = invoke e (explore param params')) ∨
        cmd = "catch" ∧ (∃ param params', f = invoke e (catch param params')) ∨
        prints_only f).
Proof.
  intros H. apply elem_of_list_to_map_2 in H.
  repeat (apply elem_of_cons in H as [H|H];
          [injection H as -> ->; cbn [callback] | ]).
  - right. eexists. split; [done|]. do 4 right. apply commandHelp_prints_only.
  - by left.
  - right. eexists. split; [done|]. by left.
  - right. eexists. split; [done|]. right. by left.
  - right. eexists. split; [done|]. destruct params as [|param params].
    + do 4 right. intros ?. apply prints_only_print.
    + do 2 right. left. split; [done|]. by exists param, params.
  - right. eexists. split; [done|]. destruct params as [|param params].
    + do 4 right. intros ?. apply prints_only_print.
    + do 3 right. left. split; [done|]. by exists param, params.
  - right. eexists. split; [done|]. do 4 right. apply commandInspect_prints_only.
  - right. eexists. split; [done|]. do 4 right. apply commandPokedex_prints_only.
  - by apply elem_of_nil in H.
Qed.

Lemma invoke_pDex e r s :
  (∀ param params, r ≠ catch param params) →
  pDex (invoke e r s).2 = pDex s.
Proof.
  intros Hr. apply (invoke_keeps (λ t, pDex t = pDex s)); [done..| |done].
  intros data t <-. destruct r; cbn.
  - apply processExplore_pDex.
  - by destruct (Hr param params).
  - apply processResponse_pDex.
  - apply processResponse_pDex.
Qed.

Lemma invoke_api e r s :
  r ≠ map_next → r ≠ map_prev → api (invoke e r s).2 = api s.
Proof.
  intros Hn Hp. apply (invoke_keeps (λ t, api t = api s)); [done..| |done].
  intros data t <-.
  destruct (request_process_api e r data t) as [H|([?|?] & _)]; done.
Qed.

Lemma invoke_pCache_no_url e r s :
  request_url r s = None → pCache (invoke e r s).2 = pCache s.
Proof. intros H. by rewrite (invoke_no_url _ _ _ _ _ _ H). Qed.

(** X17.  What a line can change: only [catch] changes the pokedex,
    only [map] and [mapb] change the page addresses, and only these
    three and [explore] change the cache.  Every other line (the other
    commands, an unknown command, an empty line) changes nothing but
    the output. *)
Theorem what_a_line_can_change e input s :
  let fields := strings_Fields (strings_TrimSpace input) in
  let t := final (main_turn e (ReadString input) s) in
  (head fields ≠ Some "catch" → pDex t = pDex s) ∧
  (head fields ≠ Some "map" → head fields ≠ Some "mapb" → api t = api s) ∧
  (head fields ≠ Some "map" → head fields ≠ Some "mapb" →
   head fields ≠ Some "explore" → head fields ≠ Some "catch" →
   pCache t = pCache s).
Proof.
  intros fields t. unfold t, main_turn. fold fields.
  destruct fields as [|cmd params]; [done|]. cbn [head].
  destruct (commands !! cmd) as [ce|] eqn:Hce; [|done].
  destruct (callback_named cmd ce e params Hce) as [->|(f & -> & Hf)]; [done|].
  set (s0 := print "Pokedex> " s).
  assert (H : (cmd ≠ "catch" → pDex (f s0).2 = pDex s) ∧
              (cmd ≠ "map" → cmd ≠ "mapb" → api (f s0).2 = api s) ∧
              (cmd ≠ "map" → cmd ≠ "mapb" → cmd ≠ "explore" → cmd ≠ "catch" →
               pCache (f s0).2 = pCache s)).
  { destruct Hf as [[-> ->]|[[-> ->]|[[-> (p & ps & ->)]|[[-> (p & ps & ->)]|Hf]]]].
    - split_and!; [intros _; by rewrite invoke_pDex | done..].
    - split_and!; [intros _; by rewrite invoke_pDex | done..].
    - split_and!; [intros _; by rewrite invoke_pDex
                  | intros _ _; by rewrite invoke_api | done].
    - split_and!; [done | intros _ _; by rewrite invoke_api | done].
    - destruct (Hf s0) as [lines ->]. done. }
  destruct H as (Hd & Ha & Hc). unfold returning.
  destruct (f s0).1; cbn [final pDex api pCache print];
    (split_and!; [intros ?; apply Hd; congruence
                 | intros ? ?; apply Ha; congruence
                 | intros ? ? ? ?; apply Hc; congruence]).
Qed.

Lemma commands_descriptions : description <$> commands = descriptions.
Proof. vm_compute. reflexivity. Qed.

(** X21.  What [help] prints: the four lines of the heading, and then
    one line for every command of [commands], the name with its
    description, each command once and in increasing order of the
    names, whatever the order in which the [range] collected them. *)
Theorem help_lists_the_commands_in_order s :
  ∃ keys,
    commandHelp descriptions s =
      (no_error,
       {| pCache := pCache s; pDex := pDex s; api := api s;
          stdout :=
            stdout s ++
            [Println ["Welcome to the Pokedex!"]; Println [];
             Println ["Available commands:"]; Println []] ++
            ((λ k, k +:+ ": " +:+ from_option description EmptyString (commands !! k)
                   +:+ newline) <$> keys) |}) ∧
    Sorted String.le keys ∧
    NoDup keys ∧
    (∀ k, k ∈ keys ↔ is_Some (commands !! k)) ∧
    (∀ collected, collected ≡ₚ (map_to_list descriptions).*1 →
       sort_Strings collected = keys).
Proof.
  exists (sort_Strings (map_to_list descriptions).*1).
  assert (Hp : sort_Strings (map_to_list descriptions).*1 ≡ₚ
               (map_to_list descriptions).*1) by apply merge_sort_Permutation.
  split_and!.
  - unfold commandHelp. rewrite foldl_print. cbn [fst snd pCache pDex api stdout print].
    f_equal. f_equal. rewrite <- !app_assoc. cbn [app]. do 5 f_equal.
    all: try (apply list_fmap_ext; intros _ k _; do 2 f_equal;
              rewrite <- commands_descriptions, lookup_fmap;
              by destruct (commands !! k)).
  - apply (Sorted_merge_sort String.le).
  - rewrite Hp. apply NoDup_fst_map_to_list.
  - intros k. rewrite Hp, <- commands_descriptions.
    rewrite list_elem_of_fmap. split.
    + intros ([k' d] & -> & Hin). apply elem_of_map_to_list in Hin. cbn [fst].
      rewrite lookup_fmap in Hin. destruct (commands !! k'); [by eexists | discriminate Hin].
    + intros [ce Hce]. exists (k, description ce). split; [done|].
      apply elem_of_map_to_list. rewrite lookup_fmap, Hce. done.
  - intros collected Hc. apply (Sorted_unique String.le).
    + apply (Sorted_merge_sort String.le).
    + apply (Sorted_merge_sort String.le).
    + unfold sort_Strings. by rewrite !merge_sort_Permutation.
Qed.

End loop.

(** ** The properties of the program at concrete runs *)

(** Dice 3 and base experience 112: caught. *)
Lemma catch_rule_witness :
  demo_json_Pokemon body_object = inl pikachu ∧
  - 2 ^ 63 ≤ dice_roll demo_env * Pokemon.BaseExperience pikachu < 2 ^ 63 ∧
  pDex (processCatch demo_json_Pokemon demo_env body_object (init 0)).2 =
    (pokedex.Add (time.Minute + time.Second) "pikachu" body_object
       pokedex.NewPokedex).2.
Proof.
  assert (Hj : demo_json_Pokemon body_object = inl pikachu) by reflexivity.
  assert (Hr : - 2 ^ 63 ≤ dice_roll demo_env * Pokemon.BaseExperience pikachu < 2 ^ 63)
    by (vm_compute; split; [discriminate | reflexivity]).
  refine (conj Hj (conj Hr _)).
  exact (proj2 (proj2 (proj2
    (catch_rule demo_json_Pokemon demo_env body_object pikachu (init 0) Hj Hr)))).
Defined.

(** Base experience 112: the dice 3 catches, as [400 / 112] is 3. *)
Lemma catch_chances_witness :
  demo_json_Pokemon body_object = inl pikachu ∧
  pokedex.entries (pDex (init 0)) !! Pokemon.Name pikachu = None ∧
  0 ≤ dice_roll demo_env < 10 ∧
  0 < Pokemon.BaseExperience pikachu ∧
  9 * Pokemon.BaseExperience pikachu < 2 ^ 63 ∧
  (is_Some (pokedex.entries
              (pDex (processCatch demo_json_Pokemon demo_env body_object (init 0)).2)
              !! Pokemon.Name pikachu) ↔
   dice_roll demo_env ≤ 400 / Pokemon.BaseExperience pikachu).
Proof.
  assert (Hj : demo_json_Pokemon body_object = inl pikachu) by reflexivity.
  assert (Hnew : pokedex.entries (pDex (init 0)) !! Pokemon.Name pikachu = None)
    by reflexivity.
  assert (Hd : 0 ≤ dice_roll demo_env < 10)
    by (vm_compute; split; [discriminate | reflexivity]).
  assert (Hb : 0 < Pokemon.BaseExperience pikachu) by reflexivity.
  assert (Hm : 9 * Pokemon.BaseExperience pikachu < 2 ^ 63) by reflexivity.
  refine (conj Hj (conj Hnew (conj Hd (conj Hb (conj Hm _))))).
  exact (catch_chances demo_json_Pokemon demo_env body_object pikachu (init 0)
           Hj Hnew Hd Hb Hm).
Defined.

Section witnesses.

Local Abbreviation invoke :=
  (invoke demo_json_PokeLoc demo_json_PokeLocal demo_json_Pokemon).
Local Abbreviation request_process :=
  (request_process demo_json_PokeLoc demo_json_PokeLocal demo_json_Pokemon).
Local Abbreviation main :=
  (main demo_json_PokeLoc demo_json_PokeLocal demo_json_Pokemon
     demo_TrimSpace demo_Fields).

(** After [catch 25], a second [catch 25] works without the network. *)
Lemma cached_call_needs_no_network_witness :
  request_url (catch "25" []) after_catch = Some url_25 ∧
  entries (pCache after_catch) !! url_25 =
    Some {| createdAt := time.Minute; data := body_object |} ∧
  invoke (with_network offline demo_env) (catch "25" []) after_catch =
    invoke demo_env (catch "25" []) after_catch.
Proof.
  assert (Hu : request_url (catch "25" []) after_catch = Some url_25) by reflexivity.
  assert (Hk : entries (pCache after_catch) !! url_25 =
               Some {| createdAt := time.Minute; data := body_object |})
    by (vm_compute; reflexivity).
  split_and!; [exact Hu | exact Hk |].
  exact (proj1 (cached_call_needs_no_network
    demo_json_PokeLoc demo_json_PokeLocal demo_json_Pokemon
    demo_env offline (catch "25" []) after_catch url_25 _ Hu Hk)).
Defined.

(** [explore nowhere] gets a plain text and caches nothing. *)
Lemma failed_fetch_caches_nothing_witness :
  let url := "https://pokeapi.co/api/v2/location-area/nowhere" in
  request_url (explore "nowhere" []) (init 0) = Some url ∧
  entries (pCache (init 0)) !! url = None ∧
  (∀ contentType body, network demo_env url = Response contentType body →
     strings_Contains contentType "application/json" = false) ∧
  (invoke demo_env (explore "nowhere" []) (init 0)).1 =
    errors_New "response is not JSON" ∧
  pCache (invoke demo_env (explore "nowhere" []) (init 0)).2 = pCache (init 0).
Proof.
  intros url.
  assert (Hu : request_url (explore "nowhere" []) (init 0) = Some url) by reflexivity.
  assert (Hk : entries (pCache (init 0)) !! url = None) by reflexivity.
  assert (Hbad : ∀ contentType body, network demo_env url = Response contentType body →
            strings_Contains contentType "application/json" = false).
  { intros contentType body H. vm_compute in H. injection H as <- _. reflexivity. }
  split_and!; [exact Hu | exact Hk | exact Hbad | |].
  - exact (proj1 (failed_fetch_caches_nothing
      demo_json_PokeLoc demo_json_PokeLocal demo_json_Pokemon
      demo_env (explore "nowhere" []) (init 0) url Hu Hk Hbad)).
  - exact (proj1 (proj2 (failed_fetch_caches_nothing
      demo_json_PokeLoc demo_json_PokeLocal demo_json_Pokemon
      demo_env (explore "nowhere" []) (init 0) url Hu Hk Hbad))).
Defined.

(** [catch 25] on a new program leaves the body in the cache. *)
Lemma fetched_body_is_cached_witness :
  request_url (catch "25" []) (init 0) = Some url_25 ∧
  entries (pCache (init 0)) !! url_25 = None ∧
  network demo_env url_25 = Response "application/json; charset=utf-8" body_object ∧
  strings_Contains "application/json; charset=utf-8" "application/json" = true ∧
  returned (Get url_25 (pCache (invoke demo_env (catch "25" []) (init 0)).2)) =
    (body_object, no_error).
Proof.
  assert (Hu : request_url (catch "25" []) (init 0) = Some url_25) by reflexivity.
  assert (Hk : entries (pCache (init 0)) !! url_25 = None) by reflexivity.
  assert (Hn : network demo_env url_25 =
               Response "application/json; charset=utf-8" body_object) by reflexivity.
  assert (Hc : strings_Contains "application/json; charset=utf-8" "application/json"
               = true) by reflexivity.
  split_and!; [exact Hu | exact Hk | exact Hn | exact Hc |].
  exact (proj2 (proj2 (fetched_body_is_cached
    demo_json_PokeLoc demo_json_PokeLocal demo_json_Pokemon
    demo_env (catch "25" []) (init 0) url_25 _ body_object Hu Hk Hn Hc))).
Defined.

(** [explore 2] fetches a body that is no JSON; the error is returned
    now and again from the cache, with the network gone. *)
Lemma undecodable_body_is_cached_witness :
  let url := "https://pokeapi.co/api/v2/location-area/2" in
  let message := "invalid character looking for beginning of value" in
  let r := explore "2" [] in
  request_url r (init 0) = Some url ∧
  entries (pCache (init 0)) !! url = None ∧
  network demo_env url = Response "application/json; charset=utf-8" payload12 ∧
  strings_Contains "application/json; charset=utf-8" "application/json" = true ∧
  undecodable demo_json_PokeLoc demo_json_PokeLocal demo_json_Pokemon
    r payload12 message ∧
  (invoke (with_network offline demo_env) r (invoke demo_env r (init 0)).2).1 =
    errors_New message.
Proof.
  intros url message r.
  assert (Hu : request_url r (init 0) = Some url) by reflexivity.
  assert (Hk : entries (pCache (init 0)) !! url = None) by reflexivity.
  assert (Hn : network demo_env url =
               Response "application/json; charset=utf-8" payload12) by reflexivity.
  assert (Hc : strings_Contains "application/json; charset=utf-8" "application/json"
               = true) by reflexivity.
  assert (Hbad : undecodable demo_json_PokeLoc demo_json_PokeLocal demo_json_Pokemon
                   r payload12 message) by reflexivity.
  split_and!; [exact Hu | exact Hk | exact Hn | exact Hc | exact Hbad |].
  exact (proj1 (proj2 (proj2 (undecodable_body_is_cached
    demo_json_PokeLoc demo_json_PokeLocal demo_json_Pokemon
    demo_env (with_network offline demo_env) r (init 0) url _ payload12 message
    Hu Hk Hn Hc Hbad)))).
Defined.

(** [catch 25] at minute 1; the reaper sweeps at minute 5; at minute 5
    and a half [catch 25] is served from the cache, with the network
    gone. *)
Lemma fetched_address_is_served_until_ttl_witness :
  let r := catch "25" [] in
  let w := {| wnow := time.Minute;
              wcache := pCache (invoke demo_env r (init 0)).2;
              wreapers := [5 * time.Minute] |} in
  let l := [Pass (4 * time.Minute); Wake 0; Pass (30 * time.Second)] in
  let w' := {| wnow := 5 * time.Minute + 30 * time.Second;
               wcache := cache_25;
               wreapers := [10 * time.Minute] |} in
  let e' := with_network offline demo_env in
  let s' := with_pCache (wcache w') after_catch in
  request_url r (init 0) = Some url_25 ∧
  entries (pCache (init 0)) !! url_25 = None ∧
  network demo_env url_25 = Response "application/json; charset=utf-8" body_object ∧
  strings_Contains "application/json; charset=utf-8" "application/json" = true ∧
  wcache w = pCache (invoke demo_env r (init 0)).2 ∧
  wnow w = clock_now demo_env ∧
  run time.Second l w = Some w' ∧
  existsb (adds url_25) l = false ∧
  wnow w' < clock_now demo_env + ttl ∧
  pCache s' = wcache w' ∧
  request_url r s' = Some url_25 ∧
  invoke e' r s' = request_process e' r body_object (request_announce r s').
Proof.
  intros r w l w' e' s'.
  assert (Hu : request_url r (init 0) = Some url_25) by reflexivity.
  assert (Hk : entries (pCache (init 0)) !! url_25 = None) by reflexivity.
  assert (Hn : network demo_env url_25 =
               Response "application/json; charset=utf-8" body_object) by reflexivity.
  assert (Hc : strings_Contains "application/json; charset=utf-8" "application/json"
               = true) by reflexivity.
  assert (Hrun : run time.Second l w = Some w') by (vm_compute; reflexivity).
  assert (Hl : existsb (adds url_25) l = false) by reflexivity.
  assert (Hlt : wnow w' < clock_now demo_env + ttl) by reflexivity.
  assert (Hu' : request_url r s' = Some url_25) by reflexivity.
  split_and!; [exact Hu | exact Hk | exact Hn | exact Hc | reflexivity | reflexivity
              | exact Hrun | exact Hl | exact Hlt | reflexivity | exact Hu' |].
  exact (fetched_address_is_served_until_ttl
    demo_json_PokeLoc demo_json_PokeLocal demo_json_Pokemon
    demo_env r (init 0) url_25 _ body_object time.Second w l w' e' r s'
    Hu Hk Hn Hc eq_refl eq_refl Hrun Hl Hlt eq_refl Hu').
Defined.

(** [catch 25] with an empty cache and with the answer in the cache:
    the same error, the same output, the same pokedex. *)
Lemma cache_is_transparent_witness :
  let s := init 0 in
  let s' := with_pCache cache_25 (init 0) in
  coherent (network demo_env) (pCache s) ∧
  coherent (network demo_env) (pCache s') ∧
  same_outside_cache s s' ∧
  (invoke demo_env (catch "25" []) s).1 = (invoke demo_env (catch "25" []) s').1 ∧
  same_outside_cache (invoke demo_env (catch "25" []) s).2
    (invoke demo_env (catch "25" []) s').2.
Proof.
  intros s s'.
  assert (Hc : coherent (network demo_env) (pCache s)) by apply coherent_empty.
  assert (Hc' : coherent (network demo_env) (pCache s')).
  { apply (coherent_Add _ _ _ "application/json; charset=utf-8");
      [reflexivity | reflexivity | apply coherent_empty]. }
  assert (Hs : same_outside_cache s s') by (split_and!; reflexivity).
  split_and!; [exact Hc | exact Hc' | exact Hs | |].
  - exact (proj1 (cache_is_transparent
      demo_json_PokeLoc demo_json_PokeLocal demo_json_Pokemon
      demo_env (catch "25" []) s s' Hc Hc' Hs)).
  - exact (proj1 (proj2 (cache_is_transparent
      demo_json_PokeLoc demo_json_PokeLocal demo_json_Pokemon
      demo_env (catch "25" []) s s' Hc Hc' Hs))).
Defined.

(** The pikachu caught before the run is in the pokedex after it. *)
Lemma pokedex_only_grows_witness :
  is_Some (pokedex.entries (pDex after_catch) !! "pikachu") ∧
  is_Some (pokedex.entries (pDex (final (main demo_events after_catch))) !! "pikachu").
Proof.
  assert (H : is_Some (pokedex.entries (pDex after_catch) !! "pikachu")).
  { exists {| pokedex.createdAt := time.Minute + time.Second;
              pokedex.data := body_object |}. vm_compute. reflexivity. }
  split; [exact H|].
  exact (pokedex_only_grows
    demo_json_PokeLoc demo_json_PokeLocal demo_json_Pokemon
    demo_TrimSpace demo_Fields demo_events after_catch "pikachu" H).
Defined.

Lemma demo_events_stable : stable_network demo_network demo_events.
Proof. repeat constructor. Defined.

Lemma cache_holds_network_answers_witness :
  stable_network demo_network demo_events ∧
  coherent demo_network (pCache (final (main demo_events (init 0)))).
Proof.
  split; [exact demo_events_stable|].
  exact (cache_holds_network_answers
    demo_json_PokeLoc demo_json_PokeLocal demo_json_Pokemon
    demo_TrimSpace demo_Fields demo_network 0 demo_events demo_events_stable).
Defined.

Lemma sweeps_are_invisible_witness :
  stable_network demo_network demo_events ∧
  stdout (final (main demo_events (init 0))) =
    stdout (final (main (without_sweeps demo_events) (init 0))).
Proof.
  split; [exact demo_events_stable|].
  exact (proj2 (proj2 (proj2 (sweeps_are_invisible
    demo_json_PokeLoc demo_json_PokeLocal demo_json_Pokemon
    demo_TrimSpace demo_Fields demo_network 0 demo_events demo_events_stable)))).
Defined.

(** What that run prints. *)
Example demo_events_stdout :
  stdout (final (main demo_events (init 0))) =
    ["Pokedex> ";
     "Throwing a Pokeball at pikachu..." +:+ newline;
     "Gotcha! You caught a pikachu" +:+ newline;
     "Pokedex> ";
     "Exploring location: 2" +:+ newline;
     "Error unmarshalling JSON: invalid character looking for beginning of value"
       +:+ newline;
     "Error executing command: invalid character looking for beginning of value"
       +:+ newline].
Proof. vm_compute. reflexivity. Qed.

(** [catch 25] stores the pokemon as pikachu: [inspect pikachu] finds
    it, [inspect 25] does not. *)
Lemma caught_is_inspected_by_name_witness :
  entries (pCache (init 0)) !! ("https://pokeapi.co/api/v2/pokemon/" +:+ "25") = None ∧
  network demo_env ("https://pokeapi.co/api/v2/pokemon/" +:+ "25") =
    Response "application/json; charset=utf-8" body_object ∧
  strings_Contains "application/json; charset=utf-8" "application/json" = true ∧
  demo_json_Pokemon body_object = inl pikachu ∧
  - 2 ^ 63 ≤ dice_roll demo_env * Pokemon.BaseExperience pikachu ≤ 400 ∧
  (commandInspect demo_json_Pokemon ["pikachu"] after_catch).1 = no_error ∧
  (commandInspect demo_json_Pokemon ["25"] after_catch).1 = errors_New "key not found".
Proof.
  assert (Hk : entries (pCache (init 0))
                 !! ("https://pokeapi.co/api/v2/pokemon/" +:+ "25") = None)
    by reflexivity.
  assert (Hn : network demo_env ("https://pokeapi.co/api/v2/pokemon/" +:+ "25") =
               Response "application/json; charset=utf-8" body_object) by reflexivity.
  assert (Hc : strings_Contains "application/json; charset=utf-8" "application/json"
               = true) by reflexivity.
  assert (Hj : demo_json_Pokemon body_object = inl pikachu) by reflexivity.
  assert (Hd : - 2 ^ 63 ≤ dice_roll demo_env * Pokemon.BaseExperience pikachu ≤ 400)
    by (vm_compute; split; discriminate).
  pose proof (caught_is_inspected_by_name
    demo_json_Pokemon demo_env "25" [] [] (init 0) _ body_object pikachu
    Hk Hn Hc Hj Hd) as [H1 H2].
  refine (conj Hk (conj Hn (conj Hc (conj Hj (conj Hd (conj H1 _)))))).
  apply H2; [discriminate | reflexivity].
Defined.


Lemma later_sweep_absorbs_earlier_witness :
  6 * time.Minute ≤ 9 * time.Minute ∧
  after (Reap_at (9 * time.Minute) (after (Reap_at (6 * time.Minute) three_entries))) =
    after (Reap_at (9 * time.Minute) three_entries).
Proof.
  assert (H : 6 * time.Minute ≤ 9 * time.Minute) by (vm_compute; discriminate).
  split; [exact H|].
  exact (proj1 (later_sweep_absorbs_earlier
                  (6 * time.Minute) (9 * time.Minute) three_entries H)).
Defined.

Lemma expiry_upper_bound_is_reached_witness :
  1 ≤ time.Second ∧
  ∃ l w',
    run time.Second (CallAdd "a" payload12 :: l) (NewCache 0) = Some w' ∧
    existsb (adds "a") l = false ∧
    wnow w' = 0 + ttl + sweepInterval + time.Second - 1 ∧
    returned (Get "a" (wcache w')) = (payload12, no_error).
Proof.
  assert (H : 1 ≤ time.Second) by (vm_compute; discriminate).
  split; [exact H|].
  exact (expiry_upper_bound_is_reached time.Second 0 "a" payload12 H).
Defined.

End witnesses.
